(** * Boost.Log: attribute value visitation, extraction terminals, record pump

    A shallow embedding of
    - [boost/log/attributes/value_visitation.hpp]
      ([visitation_result], [value_visitor_invoker], [visit]),
    - [boost/log/expressions/attr.hpp] and [boost/log/expressions/keyword.hpp]
      ([extractor_adapter], [attribute_terminal], [keyword_terminal],
      [attribute_keyword]),
    - [boost/log/sources/record_ostream.hpp] ([record_pump]),
    and of the collaborators these headers call but do not define
    (the attribute value container, the value set, the extraction engine and
    its fallback policies), which are modelled from the specification. *)

From stdpp Require Import gmap strings list fin_maps.

(** ** Exceptions and effects *)

(** [attribute_name]: two names are equal iff their strings are equal. *)
Abbreviation attribute_name := string (only parsing).

(** An object of a class derived from the [exception] base the headers catch
    by reference: its message and the attribute name attached to it, if any. *)
Record exception := mk_exception {
  what : string;
  attribute_name_info : option attribute_name
}.

(** What a C++ [throw] can raise: an object derived from [exception], or an
    object of any other type (a standard library exception, an [int], ...). *)
Inductive thrown :=
| thrown_exception (e : exception)
| thrown_other (descr : string).

(** The attribute name a handler can read off a propagating error. *)
Definition thrown_attribute_name (t : thrown) : option attribute_name :=
  match t with
  | thrown_exception e => attribute_name_info e
  | thrown_other _ => None
  end.

Inductive outcome (A : Type) :=
| Returns (a : A)
| Throws (t : thrown).
Arguments Returns {A} a.
Arguments Throws {A} t.

(** Code that runs over a program state [S], and returns or throws. *)
Definition M (S A : Type) : Type := S → outcome A * S.

Definition ret {S A} (a : A) : M S A := λ s, (Returns a, s).

Definition throw {S A} (t : thrown) : M S A := λ s, (Throws t, s).

Definition bind {S A B} (c : M S A) (k : A → M S B) : M S B :=
  λ s, match c s with
       | (Returns a, s') => k a s'
       | (Throws t, s') => (Throws t, s')
       end.

Notation "'let*' x ':=' c 'in' k" := (bind c (λ x, k))
  (at level 10, x name, c at level 100, k at level 200).
Notation "'do' c 'then' k" := (bind c (λ _, k))
  (at level 10, c at level 100, k at level 200).

(** [try { body } catch (exception& e) { handler }]: the clause selects by
    type, so only objects derived from [exception] enter the handler. *)
Definition try_catch_exception {S A} (body : M S A) (handler : exception → M S A) : M S A :=
  λ s, match body s with
       | (Throws (thrown_exception e), s') => handler e s'
       | r => r
       end.

(** Modelled from the spec: [aux::attach_attribute_name_info] is declared in
    [boost/log/exceptions.hpp], which is not among the sources; it attaches
    the attribute name to the exception object it is given. *)
Definition attach_attribute_name_info (e : exception) (name : attribute_name) : exception :=
  {| what := what e; attribute_name_info := Some name |}.

(** ** [visitation_result] *)

Inductive error_code :=
| ok
| value_not_found
| value_has_invalid_type.

Record visitation_result := mk_visitation_result { m_Code : error_code }.

(** [visitation_result(error_code code = ok)] *)
Definition visitation_result_default : visitation_result := mk_visitation_result ok.

Definition code (r : visitation_result) : error_code := m_Code r.

(** [bool operator! () const] *)
Definition visitation_result_not (r : visitation_result) : bool :=
  match m_Code r with
  | ok => false
  | _ => true
  end.

(** [BOOST_LOG_EXPLICIT_OPERATOR_BOOL()]: the negation of [operator!]. *)
Definition visitation_result_bool (r : visitation_result) : bool :=
  negb (visitation_result_not r).

Section AttributeValues.

(** The dynamic type tags of the build and the type-erased stored objects. *)
Context {type_id : Type} `{EqDecision type_id}.
Context {payload : Type}.

(** Modelled from the spec: the attribute value container
    ([boost/log/attributes/attribute_value.hpp] is not among the sources).
    It holds one value with its dynamic type, or is empty. *)
Record attribute_value := mk_attribute_value {
  m_pImpl : option (type_id * payload)
}.

(** Modelled from the spec: [holds<T>()] is true iff the dynamic type
    equals [T]; an empty container holds no type. *)
Definition holds (T : type_id) (c : attribute_value) : bool :=
  match m_pImpl c with
  | Some (T', _) => bool_decide (T' = T)
  | None => false
  end.

(** Modelled from the spec: [value_as<T>], the typed reference to the
    stored value, available exactly when [holds<T>()]. *)
Definition value_as (T : type_id) (c : attribute_value) : option payload :=
  if holds T c then snd <$> m_pImpl c else None.

(** A visitor is a function object called with the matched candidate type
    (which selects its overload) and a reference to the stored value. *)
Definition visitor_type (S : Type) : Type := type_id → payload → M S unit.

(** Modelled from the spec: [attribute_value::visit<CandidateTypes>]. For
    each candidate in declared order test [holds]; on the first match invoke
    the visitor on the value and return true; if none matches return false
    without invoking the visitor. *)
Fixpoint attribute_value_visit {S} (types : list type_id) (visitor : visitor_type S)
    (c : attribute_value) : M S bool :=
  match types with
  | [] => ret false
  | T :: rest =>
      match value_as T c with
      | Some v => do visitor T v then ret true
      | None => attribute_value_visit rest visitor c
      end
  end.

(** Modelled from the spec: the attribute value set, a mapping from name to
    container with unique keys ([attribute_values_view.hpp] is not among
    the sources); [find] is lookup by name. *)
Definition attribute_values_view : Type := gmap string attribute_value.

Definition find (attrs : attribute_values_view) (name : attribute_name) : option attribute_value :=
  attrs !! name.

(** The log record ([core/record.hpp] is not among the sources), as far as
    these headers use it: it carries its attribute value set and a message. *)
Record record := mk_record {
  attribute_values : attribute_values_view;
  message_text : string
}.

(** *** [value_visitor_invoker<T>] *)

Record value_visitor_invoker := mk_value_visitor_invoker {
  value_types : list type_id;
  m_Name : attribute_name
}.

(** [result_type operator() (attribute_values_view const& attrs, VisitorT visitor) const] *)
Definition value_visitor_invoker_call {S} (self : value_visitor_invoker)
    (attrs : attribute_values_view) (visitor : visitor_type S) : M S visitation_result :=
  try_catch_exception
    (match find attrs (m_Name self) with
     | Some second =>
         let* matched := attribute_value_visit (value_types self) visitor second in
         if matched then ret (mk_visitation_result ok)
         else ret (mk_visitation_result value_has_invalid_type)
     | None => ret (mk_visitation_result value_not_found)
     end)
    (λ e, throw (thrown_exception (attach_attribute_name_info e (m_Name self)))).

(** [result_type operator() (record const& rec, VisitorT visitor) const] *)
Definition value_visitor_invoker_call_record {S} (self : value_visitor_invoker)
    (rec : record) (visitor : visitor_type S) : M S visitation_result :=
  value_visitor_invoker_call self (attribute_values rec) visitor.

(** [visit<T>(name, attrs, visitor)] *)
Definition visit {S} (T : list type_id) (name : attribute_name)
    (attrs : attribute_values_view) (visitor : visitor_type S) : M S visitation_result :=
  let invoker := mk_value_visitor_invoker T name in
  value_visitor_invoker_call invoker attrs visitor.

(** [visit<T>(name, rec, visitor)] *)
Definition visit_record {S} (T : list type_id) (name : attribute_name)
    (rec : record) (visitor : visitor_type S) : M S visitation_result :=
  let invoker := mk_value_visitor_invoker T name in
  value_visitor_invoker_call_record invoker rec visitor.

(** The convenience forms in the specification's words: first obtain the
    record's value set, then delegate to the set form. *)
Definition invoke_record_spec {S} (self : value_visitor_invoker)
    (rec : record) (visitor : visitor_type S) : M S visitation_result :=
  let attrs := attribute_values rec in
  value_visitor_invoker_call self attrs visitor.

(** A visitor instrumented with an invocation counter kept next to the
    visitor's own state. *)
Definition counted {S} (visitor : visitor_type S) : visitor_type (S * nat) :=
  λ T v '(s, n), let '(r, s') := visitor T v s in (r, (s', Datatypes.S n)).

(** *** Typed extraction engine and fallback policies *)

(** Modelled from the spec: the extraction result, a discriminated outcome
    with exactly three states ([value_extraction.hpp] is not among the
    sources). *)
Inductive extraction_result :=
| found_and_typed (v : payload)
| not_found
| found_wrong_type.

(** Modelled from the spec: the internal visitor of the extraction engine,
    which captures the matched value. *)
Definition capture : visitor_type (option payload) :=
  λ _ v _, (Returns (), Some v).

(** Modelled from the spec: [extract<CandidateTypes>(name, value_set)].
    Look the name up; if absent, not-found; if present, run the container's
    [visit] with the capturing visitor; matched gives found-and-typed, not
    matched gives found-wrong-type. *)
Definition extract (types : list type_id) (name : attribute_name)
    (attrs : attribute_values_view) : extraction_result :=
  match find attrs name with
  | None => not_found
  | Some c =>
      match attribute_value_visit types capture c None with
      | (Returns true, Some v) => found_and_typed v
      | _ => found_wrong_type
      end
  end.

(** Modelled from the spec: the three fallback policies
    ([fallback_policy.hpp] is not among the sources). *)
Inductive fallback_policy :=
| fallback_to_none
| fallback_to_throw
| fallback_to_default (D : payload).

(** Modelled from the spec: the typed errors of the to-throw policy, which
    carry the attribute name and tell absent from wrong type. *)
Definition missing_value (name : attribute_name) : exception :=
  {| what := "missing_value"; attribute_name_info := Some name |}.

Definition invalid_type (name : attribute_name) : exception :=
  {| what := "invalid_type"; attribute_name_info := Some name |}.

(** Modelled from the spec: what each policy makes of an extraction result.
    The result is the extracted (or default) value, an empty result, or a
    raised error. *)
Definition apply_fallback (policy : fallback_policy) (name : attribute_name)
    (r : extraction_result) : outcome (option payload) :=
  match r with
  | found_and_typed v => Returns (Some v)
  | not_found =>
      match policy with
      | fallback_to_none => Returns None
      | fallback_to_throw => Throws (thrown_exception (missing_value name))
      | fallback_to_default D => Returns (Some D)
      end
  | found_wrong_type =>
      match policy with
      | fallback_to_none => Returns None
      | fallback_to_throw => Throws (thrown_exception (invalid_type name))
      | fallback_to_default D => Returns (Some D)
      end
  end.

(** Modelled from the spec: [value_extractor<T, FallbackPolicyT, TagT>], the
    extraction engine parameterized by a fallback policy. The tag only
    decorates the C++ result type and is not represented. *)
Record value_extractor := mk_value_extractor {
  extractor_value_type : list type_id;
  extractor_policy : fallback_policy
}.

Definition value_extractor_call (self : value_extractor) (name : attribute_name)
    (attrs : attribute_values_view) : outcome (option payload) :=
  apply_fallback (extractor_policy self) name
    (extract (extractor_value_type self) name attrs).

(** *** Expression terminals ([attr.hpp]) *)

(** The argument pack of an expression environment; these headers read only
    element 0 ([fusion::at_c< 0 >]). *)
Record fusion_args := mk_fusion_args { at_c_0 : attribute_values_view }.

Record environment := mk_environment { args : fusion_args }.

(** [aux::extractor_adapter<BaseT>] *)
Record extractor_adapter := mk_extractor_adapter {
  base_type : value_extractor;
  m_name : attribute_name
}.

Definition extractor_adapter_get_name (self : extractor_adapter) : attribute_name :=
  m_name self.

(** [extractor_adapter::operator() (ArgsT const& args) const] *)
Definition extractor_adapter_call (self : extractor_adapter) (a : fusion_args)
    : outcome (option payload) :=
  value_extractor_call (base_type self) (m_name self) (at_c_0 a).

(** A keyword descriptor, as [BOOST_LOG_DECLARE_ATTRIBUTE_KEYWORD_TYPE_IMPL]
    lays it out: the attribute name and the value type. *)
Record keyword_descriptor := mk_keyword_descriptor {
  get_name : attribute_name;
  value_type : list type_id
}.

(** [attribute_terminal<T, FallbackPolicyT, ParamsT, ActorT>]: the terminal
    ([proto_expr_]) and the additional parameters, which are either empty or
    the tag of the keyword the terminal comes from. *)
Record attribute_terminal := mk_attribute_terminal {
  proto_expr_ : extractor_adapter;
  m_params : option keyword_descriptor
}.

Definition attribute_terminal_get_name (self : attribute_terminal) : attribute_name :=
  extractor_adapter_get_name (proto_expr_ self).

Definition attribute_terminal_value_type (self : attribute_terminal) : list type_id :=
  extractor_value_type (base_type (proto_expr_ self)).

(** The three policy selectors of [attribute_terminal] build [base_type act],
    the actor of this terminal's own policy, from a terminal of the result's
    policy, and pass it to the result's constructor with default-constructed
    parameters (unlike their counterparts in [attribute_keyword], which use
    the result type's [base_type] and pass the parameters). A call is
    therefore well-formed only on a terminal that already has the selected
    policy and whose parameters are the empty list, the keyword tag having no
    default constructor. No result stands for a call the compiler rejects. *)

(** [or_none_result_type or_none() const] *)
Definition attribute_terminal_or_none (self : attribute_terminal) : option attribute_terminal :=
  match extractor_policy (base_type (proto_expr_ self)), m_params self with
  | fallback_to_none, None =>
      let act := mk_extractor_adapter
                   (mk_value_extractor (attribute_terminal_value_type self) fallback_to_none)
                   (extractor_adapter_get_name (proto_expr_ self)) in
      Some (mk_attribute_terminal act None)
  | _, _ => None
  end.


(** [or_default(DefaultT const& def_val) const] *)
Definition attribute_terminal_or_default (self : attribute_terminal) (def_val : payload)
    : option attribute_terminal :=
  match extractor_policy (base_type (proto_expr_ self)), m_params self with
  | fallback_to_default _, None =>
      let act := mk_extractor_adapter
                   (mk_value_extractor (attribute_terminal_value_type self)
                      (fallback_to_default def_val))
                   (attribute_terminal_get_name self) in
      Some (mk_attribute_terminal act None)
  | _, _ => None
  end.

(** [attr<AttributeValueT>(name)] *)
Definition attr (AttributeValueT : list type_id) (name : attribute_name) : attribute_terminal :=
  let act := mk_extractor_adapter (mk_value_extractor AttributeValueT fallback_to_none) name in
  mk_attribute_terminal act None.

(** Evaluation of the terminal by its actor: the adapter is applied to the
    environment's arguments. *)
Definition attribute_terminal_eval (self : attribute_terminal) (env : environment)
    : outcome (option payload) :=
  extractor_adapter_call (proto_expr_ self) (args env).

(** *** Keywords ([keyword.hpp]) *)

(** [keyword_terminal<DescriptorT>::extractor_type] *)
Definition keyword_terminal_extractor_type (d : keyword_descriptor) : value_extractor :=
  mk_value_extractor (value_type d) fallback_to_none.

(** [keyword_terminal<DescriptorT>::operator() (EnvT const& env) const] *)
Definition keyword_terminal_call (d : keyword_descriptor) (env : environment)
    : outcome (option payload) :=
  value_extractor_call (keyword_terminal_extractor_type d) (get_name d) (at_c_0 (args env)).

(** [attribute_keyword::get_name()] *)
Definition attribute_keyword_get_name (d : keyword_descriptor) : attribute_name :=
  get_name d.

(** [attribute_keyword::or_none()] *)
Definition attribute_keyword_or_none (d : keyword_descriptor) : attribute_terminal :=
  let act := mk_extractor_adapter (mk_value_extractor (value_type d) fallback_to_none)
               (attribute_keyword_get_name d) in
  mk_attribute_terminal act (Some d).

(** [attribute_keyword::or_throw()] *)
Definition attribute_keyword_or_throw (d : keyword_descriptor) : attribute_terminal :=
  let act := mk_extractor_adapter (mk_value_extractor (value_type d) fallback_to_throw)
               (attribute_keyword_get_name d) in
  mk_attribute_terminal act (Some d).

(** [attribute_keyword::or_default(DefaultT const& def_val)] *)
Definition attribute_keyword_or_default (d : keyword_descriptor) (def_val : payload)
    : attribute_terminal :=
  let act := mk_extractor_adapter
               (mk_value_extractor (value_type d) (fallback_to_default def_val))
               (attribute_keyword_get_name d) in
  mk_attribute_terminal act (Some d).

(** *** Building a value set from its sources *)

(** Modelled from the spec: the merge of the global, thread-local and
    record-local sources into one value set (record assembly is not among
    the sources). Record-local overrides thread-local overrides global; the
    union of maps keeps the left entry on a collision. *)
Definition merge_sources (global thread record_local : attribute_values_view)
    : attribute_values_view :=
  record_local ∪ (thread ∪ global).

End AttributeValues.

Arguments attribute_value : clear implicits.
Arguments attribute_values_view : clear implicits.
Arguments record : clear implicits.
Arguments value_visitor_invoker : clear implicits.
Arguments visitor_type : clear implicits.
Arguments extraction_result : clear implicits.
Arguments fallback_policy : clear implicits.
Arguments value_extractor : clear implicits.
Arguments fusion_args : clear implicits.
Arguments environment : clear implicits.
Arguments extractor_adapter : clear implicits.
Arguments keyword_descriptor : clear implicits.
Arguments attribute_terminal : clear implicits.

(** ** Record pump ([record_ostream.hpp]) *)

Section RecordPump.

Context {type_id payload : Type}.

Local Abbreviation record := (record type_id payload).

(** [basic_record_ostream<CharT>]: the adopted record and the text that has
    been streamed but not yet flushed into the record's message. *)
Record basic_record_ostream := mk_basic_record_ostream {
  m_Record : record;
  buffer : string
}.

(** [flush()] completes the pending formatting: the buffered text reaches
    the message of the record the stream is attached to. The attachment is
    made by [init_stream], which is declared in this header and defined
    elsewhere; its effect is taken from the documentation of the class (the
    stream composes the message of the record it adopts) and of
    [get_record]. *)
Definition flush (strm : basic_record_ostream) : basic_record_ostream :=
  {| m_Record := {| attribute_values := attribute_values (m_Record strm);
                    message_text := message_text (m_Record strm) +:+ buffer strm |};
     buffer := "" |}.

(** [record const& get_record() const]: flush, then hand out the record. *)
Definition get_record (strm : basic_record_ostream) : record * basic_record_ostream :=
  let strm' := flush strm in (m_Record strm', strm').

(** [strm << text] *)
Definition stream_insert (strm : basic_record_ostream) (text : string) : basic_record_ostream :=
  {| m_Record := m_Record strm; buffer := buffer strm +:+ text |}.

(** [stream_provider<CharT>::stream_compound]; pointers are addresses. *)
Record stream_compound := mk_stream_compound {
  next : option nat;
  stream : basic_record_ostream
}.

(** [explicit stream_compound(record const& rec) : next(NULL), stream(rec)] *)
Definition stream_compound_ctor (rec : record) : stream_compound :=
  {| next := None; stream := {| m_Record := rec; buffer := "" |} |}.

(** The calls to [LoggerT::push_record] and to
    [stream_provider::release_compound] (both defined elsewhere) are recorded
    in the order they happen. Other calls that leave the header
    ([allocate_compound], the logger's [open_record]) are not recorded. *)
Inductive event :=
| ev_push_record (logger : nat) (rec : record)
| ev_release_compound (compound : option nat).

(** The part of the program state the pump works on: the stream compounds
    in use, whether an exception is propagating ([std::uncaught_exception]),
    and the calls made so far. *)
Record world := mk_world {
  compounds : gmap nat stream_compound;
  uncaught_exception : bool;
  trace : list event
}.

(** [stream_provider::allocate_compound(rec)]: a compound at an address not
    in use. *)
Definition allocate_compound (rec : record) (w : world) : nat * world :=
  let p := fresh (dom (compounds w)) in
  (p, {| compounds := <[p := stream_compound_ctor rec]> (compounds w);
         uncaught_exception := uncaught_exception w;
         trace := trace w |}).

(** [stream_provider::release_compound(compound)]: the call is recorded and
    the compound is no longer in use. *)
Definition release_compound (compound : option nat) (w : world) : world :=
  {| compounds := match compound with
                  | Some p => delete p (compounds w)
                  | None => compounds w
                  end;
     uncaught_exception := uncaught_exception w;
     trace := trace w ++ [ev_release_compound compound] |}.

(** [m_pLogger->push_record(rec)] *)
Definition push_record (logger : nat) (rec : record) (w : world) : world :=
  {| compounds := compounds w;
     uncaught_exception := uncaught_exception w;
     trace := trace w ++ [ev_push_record logger rec] |}.

(** [record_pump<LoggerT>]: both members are pointers and may be null. *)
Record record_pump := mk_record_pump {
  m_pLogger : option nat;
  m_pStreamCompound : option nat
}.

(** [explicit record_pump(logger_type& lg, record const& rec)] *)
Definition record_pump_ctor (lg : nat) (rec : record) (w : world) : record_pump * world :=
  let '(p, w') := allocate_compound rec w in
  ({| m_pLogger := Some lg; m_pStreamCompound := Some p |}, w').

(** [record_pump(record_pump const& that)], implemented as a move: the
    result is the new object paired with [that] after the call. *)
Definition record_pump_copy (that : record_pump) : record_pump * record_pump :=
  ({| m_pLogger := m_pLogger that; m_pStreamCompound := m_pStreamCompound that |},
   {| m_pLogger := None; m_pStreamCompound := None |}).

(** [m_pStreamCompound->stream.get_record()] on the compound at [p]; there
    is no result when [p] is not the address of a compound in use. *)
Definition compound_get_record (p : nat) (w : world) : option (record * world) :=
  match compounds w !! p with
  | Some c =>
      let '(rec, strm') := get_record (stream c) in
      Some (rec, {| compounds := <[p := {| next := next c; stream := strm' |}]> (compounds w);
                    uncaught_exception := uncaught_exception w;
                    trace := trace w |})
  | None => None
  end.

(** [~record_pump()]. The [auto_release] guard releases the compound when
    the block is left, after the push if there is one. No result stands for
    the dereference of a null or dangling compound pointer. *)
Definition record_pump_dtor (self : record_pump) (w : world) : option world :=
  match m_pLogger self with
  | Some lg =>
      let cleanup := m_pStreamCompound self in
      if uncaught_exception w then Some (release_compound cleanup w)
      else
        match m_pStreamCompound self with
        | Some p =>
            match compound_get_record p w with
            | Some (rec, w1) => Some (release_compound cleanup (push_record lg rec w1))
            | None => None
            end
        | None => None
        end
  | None => Some w
  end.

(** [basic_record_ostream< char_type >& stream() const], under its
    assertion that the compound pointer is not null. *)
Definition record_pump_stream (self : record_pump) (w : world) : option basic_record_ostream :=
  match m_pStreamCompound self with
  | Some p => stream <$> compounds w !! p
  | None => None
  end.

(** [make_pump_stream(lg, rec)] *)
Definition make_pump_stream (lg : nat) (rec : record) (w : world) : record_pump * world :=
  record_pump_ctor lg rec w.

(** *** The life of the pump objects of one logging statement

    The pump made by [make_pump_stream] is copied from temporary to
    temporary, text is streamed into it, an exception may start to
    propagate and may be caught again, and every pump object is destroyed.
    Objects are identified by their addresses. *)
Inductive pump_step :=
| step_copy (src dst : nat)
| step_insert (a : nat) (text : string)
| step_raise
| step_catch
| step_destroy (a : nat).

Record pump_state := mk_pump_state {
  objects : gmap nat record_pump;
  the_world : world
}.

Definition set_stream (p : nat) (strm : basic_record_ostream) (w : world) : world :=
  {| compounds := alter (λ c, {| next := next c; stream := strm |}) p (compounds w);
     uncaught_exception := uncaught_exception w;
     trace := trace w |}.

(** From the throw until the handler is entered,
    [std::uncaught_exception()] is true. *)
Definition raise_exception (w : world) : world :=
  {| compounds := compounds w; uncaught_exception := true; trace := trace w |}.

(** Once the exception is caught, [std::uncaught_exception()] is false
    again. *)
Definition catch_exception (w : world) : world :=
  {| compounds := compounds w; uncaught_exception := false; trace := trace w |}.

Definition run_step (st : pump_state) (op : pump_step) : option pump_state :=
  match op with
  | step_copy src dst =>
      match objects st !! src, objects st !! dst with
      | Some that, None =>
          let '(new, that') := record_pump_copy that in
          Some {| objects := <[dst := new]> (<[src := that']> (objects st));
                  the_world := the_world st |}
      | _, _ => None
      end
  | step_insert a text =>
      match objects st !! a with
      | Some self =>
          match m_pStreamCompound self, record_pump_stream self (the_world st) with
          | Some p, Some strm =>
              Some {| objects := objects st;
                      the_world := set_stream p (stream_insert strm text) (the_world st) |}
          | _, _ => None
          end
      | None => None
      end
  | step_raise =>
      Some {| objects := objects st; the_world := raise_exception (the_world st) |}
  | step_catch =>
      Some {| objects := objects st; the_world := catch_exception (the_world st) |}
  | step_destroy a =>
      match objects st !! a with
      | Some self =>
          match record_pump_dtor self (the_world st) with
          | Some w' => Some {| objects := delete a (objects st); the_world := w' |}
          | None => None
          end
      | None => None
      end
  end.

Fixpoint run_steps (st : pump_state) (ops : list pump_step) : option pump_state :=
  match ops with
  | [] => Some st
  | op :: rest =>
      match run_step st op with
      | Some st' => run_steps st' rest
      | None => None
      end
  end.

(** The statement starts with the pump that [make_pump_stream] constructs,
    placed at address [a]. *)
Definition start_statement (a lg : nat) (rec : record) (w : world) : pump_state :=
  let '(pump, w') := make_pump_stream lg rec w in
  {| objects := {[ a := pump ]}; the_world := w' |}.

Definition is_push (e : event) : bool :=
  match e with ev_push_record _ _ => true | _ => false end.

Definition is_release (e : event) : bool :=
  match e with ev_release_compound _ => true | _ => false end.

Definition pushes (w : world) : nat := length (filter is_push (trace w)).

Definition releases (w : world) : nat := length (filter is_release (trace w)).

Definition raises (op : pump_step) : bool :=
  match op with step_raise => true | _ => false end.

Definition catches (op : pump_step) : bool :=
  match op with step_catch => true | _ => false end.

(** The uncaught-exception flag after a step. *)
Definition flag_after (op : pump_step) (flag : bool) : bool :=
  match op with
  | step_raise => true
  | step_catch => false
  | _ => flag
  end.

(** The two kinds of pump object of a statement: the one that owns the
    logger and the compound, and the moved-from ones. *)
Definition owner_pump (lg p : nat) : record_pump :=
  {| m_pLogger := Some lg; m_pStreamCompound := Some p |}.

Definition null_pump : record_pump :=
  {| m_pLogger := None; m_pStreamCompound := None |}.

(** The record is pending: exactly one live pump object owns the logger and
    the compound at [p], which is in use, and every other one is moved-from. *)
Definition pending (lg p : nat) (st : pump_state) : Prop :=
  ∃ o, objects st !! o = Some (owner_pump lg p) ∧
       (∀ a q, a ≠ o → objects st !! a = Some q → q = null_pump) ∧
       is_Some (compounds (the_world st) !! p).

(** The record is settled: every live pump object is moved-from. *)
Definition settled (st : pump_state) : Prop :=
  ∀ a q, objects st !! a = Some q → q = null_pump.

End RecordPump.

Arguments basic_record_ostream : clear implicits.
Arguments stream_compound : clear implicits.
Arguments event : clear implicits.
Arguments world : clear implicits.
Arguments pump_state : clear implicits.

(** ** The function object [nop] and the formatter ([nop.hpp], [formatter.hpp]) *)

Section Formatter.

Context {type_id : Type} `{EqDecision type_id} {payload : Type}.

(** [nop::operator() (T const&) const {}], used as a visitor. *)
Definition nop {S} : visitor_type type_id payload S := λ _ _, ret ().

(** [light_function2< void, record const&, stream_type& >]: a formatter
    function works on the stream, which is the state here. *)
Definition formatter_type (S : Type) : Type := record type_id payload → M S unit.

Context {S : Type}.

(** [expressions::tag::message] ([message.hpp]) and [aux::output_fun] are not
    among the sources: the name and the value type of the message attribute
    and the function object that puts a value to the stream are parameters. *)
Context (message_get_name : attribute_name) (message_value_type : list type_id).
Context (output_fun : visitor_type type_id payload S).

(** [basic_formatter::default_formatter] *)
Record default_formatter := mk_default_formatter { m_MessageName : attribute_name }.

(** [default_formatter() : m_MessageName(expressions::tag::message::get_name())] *)
Definition default_formatter_ctor : default_formatter :=
  mk_default_formatter message_get_name.

(** [result_type operator() (record const& rec, stream_type& strm) const]:
    the visitation result is not looked at. *)
Definition default_formatter_call (self : default_formatter) : formatter_type S :=
  λ rec, do visit_record message_value_type (m_MessageName self) rec output_fun
         then ret ().

(** [basic_formatter<CharT>] *)
Record basic_formatter := mk_basic_formatter { m_Formatter : formatter_type S }.

(** [basic_formatter() : m_Formatter(default_formatter())] *)
Definition basic_formatter_ctor : basic_formatter :=
  mk_basic_formatter (default_formatter_call default_formatter_ctor).

(** [basic_formatter(FunT const& fun) : m_Formatter(fun)] *)
Definition basic_formatter_ctor_fun (fun_ : formatter_type S) : basic_formatter :=
  mk_basic_formatter fun_.

(** [result_type operator() (record const& rec, stream_type& strm) const] *)
Definition basic_formatter_call (self : basic_formatter) : formatter_type S :=
  λ rec, m_Formatter self rec.

(** [void reset()] *)
Definition basic_formatter_reset (self : basic_formatter) : basic_formatter :=
  mk_basic_formatter (default_formatter_call default_formatter_ctor).

(** [void swap(basic_formatter& that)]: the pair is [*this] and [that] after
    the call. *)
Definition basic_formatter_swap (self that : basic_formatter)
    : basic_formatter * basic_formatter :=
  (mk_basic_formatter (m_Formatter that), mk_basic_formatter (m_Formatter self)).

(** [basic_formatter& operator= (FunT const& fun)]:
    [this_type(fun).swap( *this )]. *)
Definition basic_formatter_assign_fun (self : basic_formatter) (fun_ : formatter_type S)
    : basic_formatter :=
  snd (basic_formatter_swap (basic_formatter_ctor_fun fun_) self).

End Formatter.

Arguments default_formatter : clear implicits.
Arguments basic_formatter : clear implicits.

(** ** Date and time type sequences ([date_time_types.hpp]) *)

(** The types the sequences name. *)
Inductive date_time_type :=
| std_time_t
| std_tm
| posix_time_ptime
| local_time_local_date_time
| gregorian_date
| native_double
| posix_time_time_duration
| gregorian_date_duration
| posix_time_time_period
| local_time_local_time_period
| gregorian_date_period.

#[global] Instance date_time_type_eq_dec : EqDecision date_time_type.
Proof. solve_decision. Defined.

(** [mpl::joint_view< S1, S2 >]: the elements of [S1], then those of [S2]. *)
Definition joint_view {A} (S1 S2 : list A) : list A := S1 ++ S2.

(** [mpl::copy< Seq, mpl::back_inserter< Init > >]: every element of [Seq],
    in order, is pushed to the back of [Init]. *)
Definition copy_back_inserter {A} (Seq Init : list A) : list A :=
  foldl (λ acc x, acc ++ [x]) Init Seq.

Definition native_date_time_types : list date_time_type := [std_time_t; std_tm].

Definition boost_date_time_types : list date_time_type :=
  [posix_time_ptime; local_time_local_date_time].

Definition date_time_types : list date_time_type :=
  joint_view native_date_time_types boost_date_time_types.

Definition boost_date_types : list date_time_type := [gregorian_date].

Definition date_types : list date_time_type :=
  copy_back_inserter date_time_types boost_date_types.

Definition time_types : list date_time_type := date_time_types.

Definition native_time_duration_types : list date_time_type := [native_double].

Definition boost_time_duration_types : list date_time_type :=
  [posix_time_time_duration; gregorian_date_duration].

Definition time_duration_types : list date_time_type :=
  joint_view native_time_duration_types boost_time_duration_types.

Definition boost_time_period_types : list date_time_type :=
  [posix_time_time_period; local_time_local_time_period; gregorian_date_period].

Definition time_period_types : list date_time_type := boost_time_period_types.

(** ** The logging statement ([BOOST_LOG_STREAM_INTERNAL]) *)

Section LogStatement.

Context {type_id payload : Type}.

(** The pump returned by [make_pump_stream] reaches the statement through
    [moves] copies (none when every copy is elided); each copy is followed by
    the destruction of its source temporary. Pump objects sit at the
    addresses [from], [from + 1], ... *)
Fixpoint moves_steps (moves from : nat) : list pump_step :=
  match moves with
  | 0 => []
  | Datatypes.S k =>
      step_copy from (Datatypes.S from) :: step_destroy from
        :: moves_steps k (Datatypes.S from)
  end.

(** [make_pump_stream((logger), rec_var).stream() << t1 << ... << tn;]: the
    moves, the insertions into the pump that reached the statement, and its
    destruction at the end of the full expression. *)
Definition statement_steps (moves : nat) (texts : list string) : list pump_step :=
  moves_steps moves 0 ++ (step_insert moves <$> texts) ++ [step_destroy moves].

(** [for (record rec_var = (logger).open_record(); !!rec_var; rec_var.reset())
    make_pump_stream((logger), rec_var).stream() << ...]. [open_record] belongs
    to the logger and is not among the sources: its result is the parameter
    [rec_var], where no record stands for the invalid handle. With a valid
    record the body runs once, since [reset] invalidates the handle. *)
Definition BOOST_LOG_STREAM_INTERNAL (moves lg : nat) (rec_var : option (record type_id payload))
    (texts : list string) (w : world type_id payload) : option (world type_id payload) :=
  match rec_var with
  | Some rec =>
      the_world <$> run_steps (start_statement 0 lg rec w) (statement_steps moves texts)
  | None => Some w
  end.

(** The state of a statement while a single pump object, at address [o],
    is alive and owns the logger [lg] and the compound at [p], whose stream
    has adopted [rec] and buffered [buf]; [w0] is the world the statement
    started in. *)
Definition owner_state (lg p o : nat) (rec : record type_id payload) (buf : string)
    (w0 : world type_id payload) : pump_state type_id payload :=
  {| objects := {[ o := owner_pump lg p ]};
     the_world :=
       {| compounds := <[p := {| next := None;
                                 stream := {| m_Record := rec; buffer := buf |} |}]>
                         (compounds w0);
          uncaught_exception := uncaught_exception w0;
          trace := trace w0 |} |}.

(** The text of a sequence of insertions. *)
Definition inserted_text (texts : list string) : string :=
  foldr String.append "" texts.

(** The texts that the insertions of a run stream, in order. *)
Fixpoint streamed_texts (ops : list pump_step) : list string :=
  match ops with
  | [] => []
  | step_insert _ text :: rest => text :: streamed_texts rest
  | _ :: rest => streamed_texts rest
  end.

(** The record is pending and its text is known: one live pump object owns
    the logger and the compound at [p], every other one is moved-from, and
    the stream of the compound has adopted [rec] and buffered [buf]. *)
Definition pending_with (lg p : nat) (rec : record type_id payload) (buf : string)
    (st : pump_state type_id payload) : Prop :=
  ∃ o, objects st !! o = Some (owner_pump lg p) ∧
       (∀ a q, a ≠ o → objects st !! a = Some q → q = null_pump) ∧
       ∃ n, compounds (the_world st) !! p
            = Some {| next := n; stream := {| m_Record := rec; buffer := buf |} |}.

(** The record a statement hands to the logger: the opened record with the
    inserted text at the end of its message. *)
Definition composed_record (rec : record type_id payload) (texts : list string)
    : record type_id payload :=
  {| attribute_values := attribute_values rec;
     message_text := message_text rec +:+ inserted_text texts |}.

End LogStatement.

(** ** A concrete build, used by the scenarios *)

Module Scenario.

(** Two value types, [int] and [std::string]. *)
Inductive type_id :=
| type_int
| type_string.

#[global] Instance type_id_eq_dec : EqDecision type_id.
Proof. solve_decision. Defined.

Inductive payload :=
| int_object (z : Z)
| string_object (s : string).

Definition int_value (z : Z) : attribute_value type_id payload :=
  mk_attribute_value (Some (type_int, int_object z)).

Definition string_value (s : string) : attribute_value type_id payload :=
  mk_attribute_value (Some (type_string, string_object s)).

(** The set [{"Severity": int(2)}]. *)
Definition severity_set : attribute_values_view type_id payload :=
  {[ "Severity" := int_value 2 ]}.

Definition severity_invoker : value_visitor_invoker type_id :=
  mk_value_visitor_invoker [type_int] "Severity".

(** A visitor that appends the value it is given to an output sequence. *)
Definition output_visitor : visitor_type type_id payload (list payload) :=
  λ _ v out, (Returns (), out ++ [v]).

(** A visitor that throws an object derived from [exception]. *)
Definition failing_visitor : visitor_type type_id payload (list payload) :=
  λ _ _ out, (Throws (thrown_exception (mk_exception "conversion failed" None)), out).

(** A visitor that throws [std::runtime_error], which does not derive from
    the [exception] base named in the invoker's [catch] clause. *)
Definition std_failing_visitor : visitor_type type_id payload (list payload) :=
  λ _ _ out, (Throws (thrown_other "std::runtime_error"), out).

(** A program state that holds the value set itself next to the visitor's
    output, and a visitor that writes to the output only. *)
Definition set_and_output : Type :=
  attribute_values_view type_id payload * list payload.

Definition framed_output_visitor : visitor_type type_id payload set_and_output :=
  λ _ v st, (Returns (), (fst st, snd st ++ [v])).

(** The pump objects of one statement: the pump is moved once, the source is
    destroyed, text is streamed, and the last pump is destroyed. *)
Definition one_statement : list pump_step :=
  [step_copy 0 1; step_destroy 0; step_insert 1 "hello"; step_destroy 1].

(** The sources [global={"A":1}], [thread={"A":2,"B":3}], [record={"B":4}]. *)
Definition global_source : attribute_values_view type_id payload :=
  {[ "A" := int_value 1 ]}.

Definition thread_source : attribute_values_view type_id payload :=
  <[ "A" := int_value 2 ]> {[ "B" := int_value 3 ]}.

Definition record_source : attribute_values_view type_id payload :=
  {[ "B" := int_value 4 ]}.

Definition severity_keyword : keyword_descriptor type_id :=
  mk_keyword_descriptor "Severity" [type_int].

Definition uptime_keyword : keyword_descriptor type_id :=
  mk_keyword_descriptor "Uptime" [type_int].

Definition severity_env : environment type_id payload :=
  mk_environment (mk_fusion_args severity_set).

Definition empty_world : world type_id payload :=
  {| compounds := ∅; uncaught_exception := false; trace := [] |}.

Definition hello_record : record type_id payload :=
  {| attribute_values := severity_set; message_text := "" |}.

(** A set with a time stamp of type [posix_time::ptime], and a visitor over
    the date and time types that appends what it is given. *)
Definition timestamp_set : attribute_values_view date_time_type payload :=
  {[ "TimeStamp" := mk_attribute_value (Some (posix_time_ptime, int_object 1351500000)) ]}.

Definition time_output_visitor : visitor_type date_time_type payload (list payload) :=
  λ _ v out, (Returns (), out ++ [v]).

(** A world in which an exception is propagating. *)
Definition unwinding_world : world type_id payload :=
  {| compounds := ∅; uncaught_exception := true; trace := [] |}.

(** A record whose message attribute is a string. *)
Definition message_record : record type_id payload :=
  {| attribute_values := {[ "Message" := string_value "hello" ]}; message_text := "hello" |}.

End Scenario.

(** * Properties *)

Section VisitationProperties.

Context {type_id : Type} `{EqDecision type_id} {payload : Type}.

Implicit Types (c : attribute_value type_id payload) (T : type_id) (v : payload).
Implicit Types (types : list type_id) (attrs : attribute_values_view type_id payload).
Implicit Types (self : value_visitor_invoker type_id).

(** The type check and the typed reference agree: a container holds [T]
    exactly when it stores a value whose dynamic type is [T]. *)
Lemma holds_iff_stored T c :
  holds T c = true ↔ ∃ v, m_pImpl c = Some (T, v).
Proof.
  unfold holds. destruct (m_pImpl c) as [[T' v]|].
  - rewrite bool_decide_eq_true. split.
    + intros ->. eauto.
    + intros [v' Hv]. congruence.
  - split; [discriminate | intros [v' Hv]; discriminate].
Qed.

Lemma value_as_stored T v c :
  m_pImpl c = Some (T, v) → value_as T c = Some v.
Proof.
  intros Hc. unfold value_as, holds. rewrite Hc.
  rewrite bool_decide_eq_true_2 by done. done.
Qed.

Lemma value_as_not_held T c :
  holds T c = false → value_as T c = None.
Proof. unfold value_as. by intros ->. Qed.

Lemma value_as_Some_inv T v c :
  value_as T c = Some v → m_pImpl c = Some (T, v).
Proof.
  unfold value_as, holds. destruct (m_pImpl c) as [[T' v']|]; [|done].
  case_bool_decide; [|done]. simpl. congruence.
Qed.

(** Candidate types are mutually exclusive: two types the container holds
    are the same type. *)
Lemma holds_exclusive T1 T2 c :
  holds T1 c = true → holds T2 c = true → T1 = T2.
Proof.
  rewrite !holds_iff_stored. intros [v1 H1] [v2 H2]. congruence.
Qed.

(** No candidate matches: [visit] returns false and runs nothing. *)
Lemma attribute_value_visit_no_match {S} types (visitor : visitor_type type_id payload S) c s :
  (∀ T, T ∈ types → holds T c = false) →
  attribute_value_visit types visitor c s = (Returns false, s).
Proof.
  induction types as [|T rest IH]; intros Hno; simpl; [done|].
  rewrite value_as_not_held by (apply Hno; left).
  apply IH. intros T' HT'. apply Hno. by right.
Qed.

(** Some candidate matches: [visit] is one application of the visitor to
    the stored value, followed by [return true]. *)
Lemma attribute_value_visit_match {S} types (visitor : visitor_type type_id payload S) c T v s :
  T ∈ types → m_pImpl c = Some (T, v) →
  attribute_value_visit types visitor c s = (do visitor T v then ret true) s.
Proof.
  intros Hin Hc. induction types as [|T0 rest IH]; [by apply elem_of_nil in Hin|].
  simpl. destruct (value_as T0 c) as [v0|] eqn:Hv0.
  - apply value_as_Some_inv in Hv0. congruence.
  - apply elem_of_cons in Hin as [->|Hin]; [|by apply IH].
    rewrite (value_as_stored _ _ _ Hc) in Hv0. discriminate.
Qed.

(** Whether some candidate matches is decidable, so [visit] is always in
    one of the two cases above. *)
Lemma candidates_match_or_not types c :
  (∃ T v, T ∈ types ∧ m_pImpl c = Some (T, v)) ∨ (∀ T, T ∈ types → holds T c = false).
Proof.
  induction types as [|T0 rest IH].
  - right. intros T HT. by apply elem_of_nil in HT.
  - destruct (holds T0 c) eqn:Hh.
    + left. apply holds_iff_stored in Hh as [v Hv]. exists T0, v. split; [left|done].
    + destruct IH as [(T & v & Hin & Hc)|Hno].
      * left. exists T, v. split; [by right|done].
      * right. intros T HT. apply elem_of_cons in HT as [->|HT]; auto.
Qed.

(** *** The three evaluations of the invoker *)

Lemma invoker_call_absent {S} self attrs (visitor : visitor_type type_id payload S) s :
  find attrs (m_Name self) = None →
  value_visitor_invoker_call self attrs visitor s
  = (Returns (mk_visitation_result value_not_found), s).
Proof.
  intros Hf. unfold value_visitor_invoker_call, try_catch_exception.
  rewrite Hf. done.
Qed.

Lemma invoker_call_no_match {S} self attrs (visitor : visitor_type type_id payload S) c s :
  find attrs (m_Name self) = Some c →
  (∀ T, T ∈ value_types self → holds T c = false) →
  value_visitor_invoker_call self attrs visitor s
  = (Returns (mk_visitation_result value_has_invalid_type), s).
Proof.
  intros Hf Hno. unfold value_visitor_invoker_call, try_catch_exception, bind.
  rewrite Hf, attribute_value_visit_no_match by done. done.
Qed.

(** On a match, the invoker's result follows the one application of the
    visitor: normal return gives [ok]; an object derived from [exception]
    leaves with the name attached; any other object leaves as it is. *)
Lemma invoker_call_match {S} self attrs (visitor : visitor_type type_id payload S) c T v s :
  find attrs (m_Name self) = Some c →
  T ∈ value_types self → m_pImpl c = Some (T, v) →
  value_visitor_invoker_call self attrs visitor s
  = match visitor T v s with
    | (Returns _, s') => (Returns (mk_visitation_result ok), s')
    | (Throws (thrown_exception e), s') =>
        (Throws (thrown_exception (attach_attribute_name_info e (m_Name self))), s')
    | (Throws (thrown_other d), s') => (Throws (thrown_other d), s')
    end.
Proof.
  intros Hf Hin Hc. unfold value_visitor_invoker_call, try_catch_exception.
  rewrite Hf. unfold bind at 1.
  rewrite (attribute_value_visit_match _ _ _ _ _ _ Hin Hc). unfold bind.
  destruct (visitor T v s) as [[[]|[e|d]] s']; done.
Qed.

(** C1. The invoker returns [value_not_found] when the bound name is absent
    from the set, [value_has_invalid_type] when the name is found and no
    candidate type matches, and [ok] when the name is found, a candidate
    matches and the visitor has been applied; each returned code arises only
    from its own case, absence and type mismatch leave the state as it was
    and raise nothing, and an error can leave the invoker only out of the
    visitor applied to a matched value. *)
Theorem value_visitor_invoker_call_codes {S} self attrs
    (visitor : visitor_type type_id payload S) s :
  (find attrs (m_Name self) = None →
     value_visitor_invoker_call self attrs visitor s
     = (Returns (mk_visitation_result value_not_found), s)) ∧
  (∀ c, find attrs (m_Name self) = Some c →
     (∀ T, T ∈ value_types self → holds T c = false) →
     value_visitor_invoker_call self attrs visitor s
     = (Returns (mk_visitation_result value_has_invalid_type), s)) ∧
  (∀ c T v s', find attrs (m_Name self) = Some c →
     T ∈ value_types self → m_pImpl c = Some (T, v) →
     visitor T v s = (Returns (), s') →
     value_visitor_invoker_call self attrs visitor s
     = (Returns (mk_visitation_result ok), s')) ∧
  (∀ r s', value_visitor_invoker_call self attrs visitor s = (Returns r, s') →
     match code r with
     | ok => ∃ c T v, find attrs (m_Name self) = Some c ∧ T ∈ value_types self ∧
                      m_pImpl c = Some (T, v) ∧ visitor T v s = (Returns (), s')
     | value_not_found => find attrs (m_Name self) = None ∧ s' = s
     | value_has_invalid_type =>
         ∃ c, find attrs (m_Name self) = Some c ∧
              (∀ T, T ∈ value_types self → holds T c = false) ∧ s' = s
     end) ∧
  (∀ t s', value_visitor_invoker_call self attrs visitor s = (Throws t, s') →
     ∃ c T v t0, find attrs (m_Name self) = Some c ∧ T ∈ value_types self ∧
                 m_pImpl c = Some (T, v) ∧ visitor T v s = (Throws t0, s')).
Proof.
  split; [apply invoker_call_absent|].
  split; [intros c; apply invoker_call_no_match|].
  split.
  { intros c T v s' Hf Hin Hc Hv.
    rewrite (invoker_call_match _ _ _ _ _ _ _ Hf Hin Hc), Hv. done. }
  destruct (find attrs (m_Name self)) as [c|] eqn:Hf.
  - destruct (candidates_match_or_not (value_types self) c) as [(T & v & Hin & Hc)|Hno].
    + rewrite (invoker_call_match _ _ _ _ _ _ _ Hf Hin Hc).
      destruct (visitor T v s) as [[[]|[e|d]] s1] eqn:Hv; split.
      * intros r s' [= <- <-]. simpl. exists c, T, v. by rewrite Hv.
      * intros t s' [=].
      * intros r s' [=].
      * intros t s' [= <- <-]. exists c, T, v, (thrown_exception e). by rewrite Hv.
      * intros r s' [=].
      * intros t s' [= <- <-]. exists c, T, v, (thrown_other d). by rewrite Hv.
    + rewrite (invoker_call_no_match _ _ _ _ _ Hf Hno). split.
      * intros r s' [= <- <-]. simpl. eauto.
      * intros t s' [=].
  - rewrite (invoker_call_absent _ _ _ _ Hf). split.
    + intros r s' [= <- <-]. done.
    + intros t s' [=].
Qed.

(** C2. When the looked-up name is absent from the set, the outcome is
    not-found ([value_not_found] from the invoker, [not_found] from the
    extraction engine) and not found-wrong-type, whatever the candidate
    types and the visitor are. *)
Theorem absent_name_is_not_found {S} types (name : attribute_name) attrs
    (visitor : visitor_type type_id payload S) s :
  attrs !! name = None →
  value_visitor_invoker_call (mk_value_visitor_invoker types name) attrs visitor s
  = (Returns (mk_visitation_result value_not_found), s) ∧
  fst (value_visitor_invoker_call (mk_value_visitor_invoker types name) attrs visitor s)
  ≠ Returns (mk_visitation_result value_has_invalid_type) ∧
  extract types name attrs = not_found ∧
  extract types name attrs ≠ found_wrong_type.
Proof.
  intros Hf.
  assert (Hcall := invoker_call_absent (mk_value_visitor_invoker types name)
                     attrs visitor s Hf).
  rewrite Hcall. unfold extract, find. rewrite Hf. done.
Qed.

(** C3, as amended. When the visitor raises an error on a found-and-typed
    value, the error is not suppressed: if the raised object derives from
    [exception], the invoker attaches the bound attribute name to it (the
    message is kept) and re-raises it, so the error names the attribute; an
    object of any other type propagates to the caller exactly as raised. *)
Theorem value_visitor_invoker_call_visitor_error {S} self attrs
    (visitor : visitor_type type_id payload S) c T v t s s' :
  find attrs (m_Name self) = Some c →
  T ∈ value_types self → m_pImpl c = Some (T, v) →
  visitor T v s = (Throws t, s') →
  ∃ t', value_visitor_invoker_call self attrs visitor s = (Throws t', s') ∧
    match t with
    | thrown_exception e =>
        ∃ e', t' = thrown_exception e' ∧ what e' = what e ∧
              attribute_name_info e' = Some (m_Name self) ∧
              thrown_attribute_name t' = Some (m_Name self)
    | thrown_other d => t' = thrown_other d
    end.
Proof.
  intros Hf Hin Hc Hv.
  rewrite (invoker_call_match _ _ _ _ _ _ _ Hf Hin Hc), Hv.
  destruct t as [e|d]; eexists; (split; [reflexivity|]); [|done].
  eexists; split; [reflexivity|]. done.
Qed.

(** C4. The invoker changes the program state only by applying the
    visitor: the state after the call is the state before it, or the state
    the visitor leaves when applied to the value stored under the name; on
    not-found and wrong-type the whole state is as before; so in every
    outcome (also when the visitor raises) a value set living in the state,
    and with it every container in it, is unchanged whenever the visitor
    itself leaves that set alone. *)
Theorem value_visitor_invoker_call_frame {S} self attrs
    (visitor : visitor_type type_id payload S) s :
  (snd (value_visitor_invoker_call self attrs visitor s) = s ∨
   ∃ c T v, find attrs (m_Name self) = Some c ∧ T ∈ value_types self ∧
            m_pImpl c = Some (T, v) ∧
            snd (value_visitor_invoker_call self attrs visitor s)
            = snd (visitor T v s)) ∧
  (∀ r, fst (value_visitor_invoker_call self attrs visitor s) = Returns r →
        code r ≠ ok →
        snd (value_visitor_invoker_call self attrs visitor s) = s) ∧
  (∀ view_of : S → attribute_values_view type_id payload,
     (∀ T v s0, view_of (snd (visitor T v s0)) = view_of s0) →
     view_of (snd (value_visitor_invoker_call self attrs visitor s)) = view_of s).
Proof.
  destruct (find attrs (m_Name self)) as [c|] eqn:Hf.
  - destruct (candidates_match_or_not (value_types self) c) as [(T & v & Hin & Hc)|Hno].
    + rewrite (invoker_call_match _ _ _ _ _ _ _ Hf Hin Hc). split_and!.
      * right. exists c, T, v. split_and!; try done.
        by destruct (visitor T v s) as [[[]|[e|d]] s1].
      * intros r. destruct (visitor T v s) as [[[]|[e|d]] s1]; simpl; [|done..].
        intros [= <-]. done.
      * intros view_of Hframe. specialize (Hframe T v s).
        by destruct (visitor T v s) as [[[]|[e|d]] s1].
    + rewrite (invoker_call_no_match _ _ _ _ _ Hf Hno). split_and!; auto.
  - rewrite (invoker_call_absent _ _ _ _ Hf). split_and!; auto.
Qed.

(** The counter of an instrumented visitor goes up by one per application,
    and the instrumentation changes nothing else. *)
Lemma counted_apply {S} (visitor : visitor_type type_id payload S) T v s n :
  counted visitor T v (s, n)
  = (fst (visitor T v s), (snd (visitor T v s), Datatypes.S n)).
Proof. unfold counted. by destruct (visitor T v s). Qed.

(** C7. A visit over the candidate types applies the visitor exactly once
    when some candidate type matches and not at all when none matches, in
    which case it returns false and leaves the state alone; a visit that
    returns true has applied the visitor once, and no visit applies it more
    than once. The count is read off a visitor instrumented with a counter,
    which behaves as the plain visitor does. *)
Theorem attribute_value_visit_count {S} types
    (visitor : visitor_type type_id payload S) c s n :
  ∃ r s' k,
    attribute_value_visit types (counted visitor) c (s, n) = (r, (s', n + k)) ∧
    attribute_value_visit types visitor c s = (r, s') ∧
    ((∃ T, T ∈ types ∧ holds T c = true) → k = 1 ∧ r ≠ Returns false) ∧
    ((∀ T, T ∈ types → holds T c = false) → k = 0 ∧ r = Returns false ∧ s' = s) ∧
    (r = Returns true → k = 1) ∧
    (r = Returns false → k = 0) ∧
    k ≤ 1.
Proof.
  destruct (candidates_match_or_not types c) as [(T & v & Hin & Hc)|Hno].
  - rewrite !(attribute_value_visit_match _ _ _ _ _ _ Hin Hc). unfold bind.
    rewrite counted_apply.
    assert (Hh : holds T c = true) by (apply holds_iff_stored; eauto).
    assert (Hcontra : ∀ P : Prop, (∀ T, T ∈ types → holds T c = false) → P).
    { intros P Hno. rewrite (Hno T Hin) in Hh. discriminate. }
    destruct (visitor T v s) as [[[]|t] s1]; simpl.
    + exists (Returns true), s1, 1. rewrite Nat.add_1_r.
      split_and!; try done; try lia. apply Hcontra.
    + exists (Throws t), s1, 1. rewrite Nat.add_1_r.
      split_and!; try done; try lia. apply Hcontra.
  - rewrite !attribute_value_visit_no_match by done.
    exists (Returns false), s, 0. rewrite Nat.add_0_r.
    split_and!; try done; try lia.
    intros (T & Hin & Hh). rewrite (Hno T Hin) in Hh. discriminate.
Qed.

(** The same count at the invoker: the visitor has been applied once when
    the result is [ok] (or an error leaves), and not at all for the two other
    codes. *)
Lemma value_visitor_invoker_call_count {S} self attrs
    (visitor : visitor_type type_id payload S) s n :
  ∃ r s' k,
    value_visitor_invoker_call self attrs (counted visitor) (s, n) = (r, (s', n + k)) ∧
    value_visitor_invoker_call self attrs visitor s = (r, s') ∧
    k = match r with
        | Returns (mk_visitation_result ok) | Throws _ => 1
        | Returns _ => 0
        end.
Proof.
  destruct (find attrs (m_Name self)) as [c|] eqn:Hf.
  - destruct (candidates_match_or_not (value_types self) c) as [(T & v & Hin & Hc)|Hno].
    + rewrite !(invoker_call_match _ _ _ _ _ _ _ Hf Hin Hc), counted_apply.
      destruct (visitor T v s) as [[[]|[e|d]] s1]; simpl;
        eexists _, _, 1; rewrite Nat.add_1_r; done.
    + rewrite !(invoker_call_no_match _ _ _ _ _ Hf Hno).
      eexists _, _, 0; rewrite Nat.add_0_r; done.
  - rewrite !(invoker_call_absent _ _ _ _ Hf).
    eexists _, _, 0; rewrite Nat.add_0_r; done.
Qed.

(** C8. The record form of the invoker returns what the set form returns on
    the record's attribute value set (it first obtains the set, then
    delegates), and the free function [visit] returns what an invoker
    constructed on the name returns, for sets and for records. *)
Theorem convenience_forms_delegate {S} self (T : list type_id) (name : attribute_name)
    (rec : record type_id payload) attrs (visitor : visitor_type type_id payload S) s :
  value_visitor_invoker_call_record self rec visitor s
  = value_visitor_invoker_call self (attribute_values rec) visitor s ∧
  value_visitor_invoker_call_record self rec visitor s
  = invoke_record_spec self rec visitor s ∧
  visit T name attrs visitor s
  = value_visitor_invoker_call (mk_value_visitor_invoker T name) attrs visitor s ∧
  visit_record T name rec visitor s
  = value_visitor_invoker_call (mk_value_visitor_invoker T name)
      (attribute_values rec) visitor s.
Proof. repeat split. Qed.

End VisitationProperties.


Section ExtractionProperties.

Context {type_id : Type} `{EqDecision type_id} {payload : Type}.

Implicit Types (c : attribute_value type_id payload) (T : type_id) (v D : payload).
Implicit Types (types : list type_id) (attrs : attribute_values_view type_id payload).
Implicit Types (t : attribute_terminal type_id payload) (d : keyword_descriptor type_id).
Implicit Types (env : environment type_id payload).

Lemma extract_absent types (name : attribute_name) attrs :
  attrs !! name = None → extract types name attrs = not_found.
Proof. intros Hf. unfold extract, find. by rewrite Hf. Qed.

Lemma extract_no_match types (name : attribute_name) attrs c :
  attrs !! name = Some c → (∀ T, T ∈ types → holds T c = false) →
  extract types name attrs = found_wrong_type.
Proof.
  intros Hf Hno. unfold extract, find. rewrite Hf.
  by rewrite attribute_value_visit_no_match.
Qed.

(** A value stored under the name with a candidate type is extracted as it
    is stored. *)
Lemma extract_match types (name : attribute_name) attrs c T v :
  attrs !! name = Some c → T ∈ types → m_pImpl c = Some (T, v) →
  extract types name attrs = found_and_typed v.
Proof.
  intros Hf Hin Hc. unfold extract, find. rewrite Hf.
  by rewrite (attribute_value_visit_match _ _ _ _ _ _ Hin Hc).
Qed.

(** The three states of the extraction result are decided by the set alone. *)
Lemma extract_cases types (name : attribute_name) attrs :
  match extract types name attrs with
  | not_found => attrs !! name = None
  | found_wrong_type =>
      ∃ c, attrs !! name = Some c ∧ ∀ T, T ∈ types → holds T c = false
  | found_and_typed v =>
      ∃ c T, attrs !! name = Some c ∧ T ∈ types ∧ m_pImpl c = Some (T, v)
  end.
Proof.
  destruct (attrs !! name) as [c|] eqn:Hf.
  - destruct (candidates_match_or_not types c) as [(T & v & Hin & Hc)|Hno].
    + rewrite (extract_match _ _ _ _ _ _ Hf Hin Hc). eauto.
    + rewrite (extract_no_match _ _ _ _ Hf Hno). eauto.
  - by rewrite extract_absent.
Qed.

(** C5. The to-default policy with default [D] yields [D] for not-found and
    for found-wrong-type, and yields the extracted value, never the default,
    for found-and-typed, whatever [D] is. So an extractor with that policy
    yields [D] on a set where the name is absent or stored with a type that
    is not a candidate, and the stored value where it is stored with a
    candidate type; the terminal that the keyword's [or_default] builds
    evaluates as that extractor on the keyword's name, and so does the result
    of the terminal's own [or_default] wherever that call is well-formed. *)
Theorem fallback_to_default_laws D (name : attribute_name) types
    (attrs : attribute_values_view type_id payload) :
  apply_fallback (fallback_to_default D) name not_found = Returns (Some D) ∧
  apply_fallback (fallback_to_default D) name found_wrong_type = Returns (Some D) ∧
  (∀ v D', apply_fallback (fallback_to_default D') name (found_and_typed v)
           = Returns (Some v)) ∧
  (attrs !! name = None →
     value_extractor_call (mk_value_extractor types (fallback_to_default D)) name attrs
     = Returns (Some D)) ∧
  (∀ c, attrs !! name = Some c → (∀ T, T ∈ types → holds T c = false) →
     value_extractor_call (mk_value_extractor types (fallback_to_default D)) name attrs
     = Returns (Some D)) ∧
  (∀ c T v, attrs !! name = Some c → T ∈ types → m_pImpl c = Some (T, v) →
     value_extractor_call (mk_value_extractor types (fallback_to_default D)) name attrs
     = Returns (Some v)) ∧
  (∀ d env,
     attribute_terminal_eval (attribute_keyword_or_default d D) env
     = value_extractor_call (mk_value_extractor (value_type d) (fallback_to_default D))
         (get_name d) (at_c_0 (args env))) ∧
  (∀ t t' env, attribute_terminal_or_default t D = Some t' →
     attribute_terminal_eval t' env
     = value_extractor_call
         (mk_value_extractor (attribute_terminal_value_type t) (fallback_to_default D))
         (attribute_terminal_get_name t) (at_c_0 (args env))).
Proof.
  unfold value_extractor_call. simpl. split_and!; try done.
  - intros Hf. by rewrite extract_absent.
  - intros c Hf Hno. by rewrite (extract_no_match _ _ _ _ Hf Hno).
  - intros c T v Hf Hin Hc. by rewrite (extract_match _ _ _ _ _ _ Hf Hin Hc).
  - intros t t' env. unfold attribute_terminal_or_default.
    destruct (extractor_policy (base_type (proto_expr_ t))); try done.
    destruct (m_params t); [done|]. by intros [= <-].
Qed.

(** C9. A keyword used as a terminal extracts with the to-none policy: on a
    value set where the attribute is absent, or present with a type that is
    not a candidate, the result is empty; the evaluation never raises; and it
    agrees with the terminal that [or_none] builds from the keyword. *)
Theorem keyword_terminal_call_to_none d env :
  extractor_policy (keyword_terminal_extractor_type (payload := payload) d)
  = fallback_to_none ∧
  (at_c_0 (args env) !! get_name d = None →
     keyword_terminal_call d env = Returns None) ∧
  (∀ c, at_c_0 (args env) !! get_name d = Some c →
     (∀ T, T ∈ value_type d → holds T c = false) →
     keyword_terminal_call d env = Returns None) ∧
  (∀ e, keyword_terminal_call d env ≠ Throws e) ∧
  keyword_terminal_call d env = attribute_terminal_eval (attribute_keyword_or_none d) env.
Proof.
  unfold keyword_terminal_call, value_extractor_call. simpl. split_and!; try done.
  - intros Hf. by rewrite extract_absent.
  - intros c Hf Hno. by rewrite (extract_no_match _ _ _ _ Hf Hno).
  - intros e. by destruct (extract _ _ _).
Qed.

(** C6. In the merged set every name resolves to the record-local entry
    if there is one, else to the thread-local entry if there is one, else to
    the global entry; merging [global={"A":1}], [thread={"A":2,"B":3}],
    [record={"B":4}] gives a set with ["A"] at 2 and ["B"] at 4. *)
Theorem merge_sources_precedence (global thread record_local : attribute_values_view type_id payload)
    (name : attribute_name) :
  merge_sources global thread record_local !! name
  = match record_local !! name with
    | Some c => Some c
    | None => match thread !! name with
              | Some c => Some c
              | None => global !! name
              end
    end ∧
  merge_sources Scenario.global_source Scenario.thread_source Scenario.record_source !! "A"
  = Some (Scenario.int_value 2) ∧
  merge_sources Scenario.global_source Scenario.thread_source Scenario.record_source !! "B"
  = Some (Scenario.int_value 4).
Proof.
  split; [|by vm_compute].
  unfold merge_sources, attribute_values_view in *. rewrite !lookup_union.
  by destruct (record_local !! name), (thread !! name), (global !! name).
Qed.

End ExtractionProperties.


Section RecordPumpProperties.

Context {type_id payload : Type}.

Implicit Types (w : world type_id payload) (st : pump_state type_id payload).
Implicit Types (self that : record_pump) (rec : record type_id payload).

Lemma pushes_push_record lg rec w : pushes (push_record lg rec w) = pushes w + 1.
Proof. unfold pushes. simpl. rewrite filter_app, length_app. done. Qed.

Lemma releases_push_record lg rec w : releases (push_record lg rec w) = releases w.
Proof. unfold releases. simpl. rewrite filter_app, length_app. simpl. lia. Qed.

Lemma pushes_release_compound p w : pushes (release_compound p w) = pushes w.
Proof. unfold pushes. simpl. rewrite filter_app, length_app. simpl. lia. Qed.

Lemma releases_release_compound p w : releases (release_compound p w) = releases w + 1.
Proof. unfold releases. simpl. rewrite filter_app, length_app. done. Qed.

(** *** One destructor call *)

Lemma record_pump_dtor_null w : record_pump_dtor null_pump w = Some w.
Proof. done. Qed.

(** No exception in flight: the flushed record is pushed, then the compound
    is released. *)
Lemma record_pump_dtor_owner_clean lg p c w :
  compounds w !! p = Some c → uncaught_exception w = false →
  ∃ w', record_pump_dtor (owner_pump lg p) w = Some w' ∧
        trace w' = trace w ++ [ev_push_record lg (m_Record (flush (stream c)));
                               ev_release_compound (Some p)] ∧
        compounds w' !! p = None ∧
        uncaught_exception w' = false ∧
        pushes w' = pushes w + 1 ∧ releases w' = releases w + 1.
Proof.
  intros Hc Hu. unfold record_pump_dtor, compound_get_record. simpl.
  rewrite Hu, Hc. simpl. eexists. split; [reflexivity|].
  rewrite pushes_release_compound, releases_release_compound,
    pushes_push_record, releases_push_record.
  unfold pushes, releases. simpl. rewrite <- app_assoc. simpl.
  split_and!; try done. by rewrite lookup_delete_eq.
Qed.

(** An exception in flight: nothing is pushed, the compound is released. *)
Lemma record_pump_dtor_owner_unwinding lg p w :
  uncaught_exception w = true →
  record_pump_dtor (owner_pump lg p) w = Some (release_compound (Some p) w).
Proof. intros Hu. unfold record_pump_dtor. simpl. by rewrite Hu. Qed.

(** *** The copy constructor moves *)

Lemma record_pump_copy_owner lg p :
  record_pump_copy (owner_pump lg p) = (owner_pump lg p, null_pump).
Proof. done. Qed.

Lemma record_pump_copy_null : record_pump_copy null_pump = (null_pump, null_pump).
Proof. done. Qed.

(** *** Runs of a statement *)

Lemma run_step_settled st op st' :
  settled st → run_step st op = Some st' →
  settled st' ∧ pushes (the_world st') = pushes (the_world st) ∧
  releases (the_world st') = releases (the_world st).
Proof.
  intros Hs. destruct op as [src dst|a text| | |a]; simpl.
  - destruct (objects st !! src) as [that|] eqn:Hsrc; [|done].
    destruct (objects st !! dst) eqn:Hdst; [done|].
    rewrite (Hs _ _ Hsrc). intros [= <-]. simpl. split; [|done].
    intros a q. simpl. rewrite !lookup_insert. repeat case_decide; naive_solver.
  - destruct (objects st !! a) as [self|] eqn:Ha; [|done].
    by rewrite (Hs _ _ Ha).
  - intros [= <-]. done.
  - intros [= <-]. done.
  - destruct (objects st !! a) as [self|] eqn:Ha; [|done].
    rewrite (Hs _ _ Ha), record_pump_dtor_null. intros [= <-]. simpl.
    split; [|done]. intros b q. simpl. intros Hb.
    apply lookup_delete_Some in Hb as [_ Hb]. eauto.
Qed.

Lemma run_steps_settled ops : ∀ st st',
  settled st → run_steps st ops = Some st' →
  settled st' ∧ pushes (the_world st') = pushes (the_world st) ∧
  releases (the_world st') = releases (the_world st).
Proof.
  induction ops as [|op ops IH]; intros st st' Hs; simpl.
  - intros [= <-]. done.
  - destruct (run_step st op) as [st1|] eqn:Hstep; [|done].
    destruct (run_step_settled _ _ _ Hs Hstep) as (Hs1 & Hp1 & Hr1).
    intros Hrun. destruct (IH _ _ Hs1 Hrun) as (? & ? & ?).
    split_and!; [done|congruence..].
Qed.

Lemma run_step_pending lg p st op st' :
  pending lg p st → run_step st op = Some st' →
  (pending lg p st' ∧
   pushes (the_world st') = pushes (the_world st) ∧
   releases (the_world st') = releases (the_world st) ∧
   uncaught_exception (the_world st')
   = flag_after op (uncaught_exception (the_world st)))
  ∨ (settled st' ∧
     releases (the_world st') = releases (the_world st) + 1 ∧
     pushes (the_world st')
     = pushes (the_world st) + (if uncaught_exception (the_world st) then 0 else 1)).
Proof.
  intros (o & Ho & Hothers & Hp). destruct op as [src dst|a text| | |a]; simpl.
  - destruct (objects st !! src) as [that|] eqn:Hsrc; [|done].
    destruct (objects st !! dst) eqn:Hdst; [done|].
    intros [= <-]. left. split_and!; try done.
    destruct (decide (src = o)) as [->|Hne].
    + assert (that = owner_pump lg p) as -> by congruence.
      exists dst. simpl. rewrite lookup_insert_eq. split_and!; [done| |done].
      intros a q Ha. rewrite lookup_insert_ne by done. rewrite lookup_insert.
      case_decide; [by intros [= <-]|]. apply Hothers. congruence.
    + exists o. simpl. rewrite (Hothers _ _ Hne Hsrc). simpl.
      assert (dst ≠ o) by congruence.
      rewrite !lookup_insert_ne by done. split_and!; [done| |done].
      intros a q Ha. rewrite !lookup_insert. repeat case_decide; try by intros [= <-].
      by apply Hothers.
  - destruct (objects st !! a) as [self|] eqn:Ha; [|done].
    destruct (m_pStreamCompound self) as [p'|] eqn:Hp'; [|done].
    destruct (record_pump_stream self (the_world st)) as [strm|]; [|done].
    intros [= <-]. left. split_and!; try done.
    exists o. simpl. split_and!; try done.
    rewrite lookup_alter. destruct Hp as [c Hc].
    case_decide; [subst p'|]; rewrite Hc; simpl; eauto.
  - intros [= <-]. left. simpl. split_and!; try done. by exists o.
  - intros [= <-]. left. simpl. split_and!; try done. by exists o.
  - destruct (objects st !! a) as [self|] eqn:Ha; [|done].
    destruct (decide (a = o)) as [->|Hne].
    + assert (self = owner_pump lg p) as -> by congruence.
      assert (Hsettled : settled {| objects := delete o (objects st);
                                    the_world := the_world st' |}).
      { intros b q. simpl. intros Hb. apply lookup_delete_Some in Hb as [Hb1 Hb2].
        apply (Hothers b); done. }
      destruct (uncaught_exception (the_world st)) eqn:Hu.
      * rewrite record_pump_dtor_owner_unwinding by done. intros [= <-]. right. simpl.
        rewrite pushes_release_compound, releases_release_compound.
        split_and!; [|done|lia]. intros b q. apply Hsettled.
      * destruct Hp as [c Hc].
        destruct (record_pump_dtor_owner_clean lg p c _ Hc Hu)
          as (w' & -> & _ & _ & _ & Hpush & Hrel).
        intros [= <-]. right. simpl. split_and!; [|done..]. intros b q. apply Hsettled.
    + rewrite (Hothers _ _ Hne Ha), record_pump_dtor_null. intros [= <-]. left.
      split_and!; try done.
      exists o. simpl. rewrite lookup_delete_ne by done. split_and!; [done| |done].
      intros b q Hb Hq. apply lookup_delete_Some in Hq as [_ Hq]. by apply (Hothers b).
Qed.

Lemma run_steps_pending lg p ops : ∀ st st',
  pending lg p st → run_steps st ops = Some st' →
  pushes (the_world st) ≤ pushes (the_world st') ≤ pushes (the_world st) + 1 ∧
  releases (the_world st') ≤ releases (the_world st) + 1 ∧
  (uncaught_exception (the_world st) = true →
   forallb (λ op, negb (catches op)) ops = true →
     pushes (the_world st') = pushes (the_world st)) ∧
  (objects st' = ∅ →
     releases (the_world st') = releases (the_world st) + 1 ∧
     (uncaught_exception (the_world st) = false →
      forallb (λ op, negb (raises op)) ops = true →
      pushes (the_world st') = pushes (the_world st) + 1)).
Proof.
  induction ops as [|op ops IH]; intros st st' Hpend; simpl.
  - intros [= <-]. split_and!; try lia; try done.
    intros Hempty. destruct Hpend as (o & Ho & _). rewrite Hempty in Ho. done.
  - destruct (run_step st op) as [st1|] eqn:Hstep; [|done]. intros Hrun.
    destruct (run_step_pending _ _ _ _ _ Hpend Hstep)
      as [(Hpend1 & Hp1 & Hr1 & Hu1)|(Hs1 & Hr1 & Hp1)].
    + destruct (IH _ _ Hpend1 Hrun) as (Hle & Hrel & Hunw & Hend).
      rewrite Hp1, Hr1 in *. split_and!; [lia|lia|lia| |].
      * intros Hu Hall. apply andb_prop in Hall as [Hop Hall].
        apply Hunw; [|done]. rewrite Hu1, Hu. by destruct op.
      * intros Hempty. destruct (Hend Hempty) as [Hrel' Hpush]. split; [done|].
        intros Hu Hall. apply andb_prop in Hall as [Hop Hall].
        apply Hpush; [|done]. rewrite Hu1, Hu. by destruct op.
    + destruct (run_steps_settled _ _ _ Hs1 Hrun) as (_ & Hp' & Hr').
      rewrite Hp', Hr', Hp1, Hr1.
      destruct (uncaught_exception (the_world st));
        (split; [lia|]); (split; [lia|]); (split; [intros; (done || lia)|]);
        intros _; (split; [lia|]); intros; (done || lia).
Qed.

(** The statement starts with the record pending. *)
Lemma start_statement_pending a lg rec w :
  ∃ p, pending lg p (start_statement a lg rec w) ∧
       pushes (the_world (start_statement a lg rec w)) = pushes w ∧
       releases (the_world (start_statement a lg rec w)) = releases w ∧
       uncaught_exception (the_world (start_statement a lg rec w))
       = uncaught_exception w.
Proof.
  exists (fresh (dom (compounds w))). split; [|done].
  exists a. unfold start_statement. simpl.
  rewrite lookup_singleton_eq, lookup_insert_eq. split_and!; [done| |eauto].
  intros b q Hb Hq. by rewrite lookup_singleton_ne in Hq.
Qed.

(** A destructor call on a live pump object of a statement never reads
    through a null or dangling compound pointer. *)
Lemma run_step_destroy_defined lg p st a :
  pending lg p st ∨ settled st → is_Some (objects st !! a) →
  is_Some (run_step st (step_destroy a)).
Proof.
  intros Hst [self Ha]. simpl. rewrite Ha.
  destruct Hst as [(o & Ho & Hothers & [c Hc])|Hs].
  - destruct (decide (a = o)) as [->|Hne].
    + assert (self = owner_pump lg p) as -> by congruence.
      destruct (uncaught_exception (the_world st)) eqn:Hu.
      * rewrite record_pump_dtor_owner_unwinding by done. eauto.
      * destruct (record_pump_dtor_owner_clean lg p c _ Hc Hu) as (w' & -> & _). eauto.
    + rewrite (Hothers _ _ Hne Ha), record_pump_dtor_null. eauto.
  - rewrite (Hs _ _ Ha), record_pump_dtor_null. eauto.
Qed.

Lemma string_append_nil_r (a : string) : a +:+ "" = a.
Proof.
  induction a as [|x a IH]; [done|].
  change (String x (a +:+ "") = String x a). by rewrite IH.
Qed.

Lemma string_append_assoc (a b c : string) : (a +:+ b) +:+ c = a +:+ (b +:+ c).
Proof.
  induction a as [|x a IH]; [done|].
  change (String x ((a +:+ b) +:+ c) = String x (a +:+ (b +:+ c))). by rewrite IH.
Qed.

Lemma inserted_text_app (l1 l2 : list string) :
  inserted_text (l1 ++ l2) = inserted_text l1 +:+ inserted_text l2.
Proof.
  induction l1 as [|x l1 IH]; [done|].
  change (x +:+ inserted_text (l1 ++ l2) = (x +:+ inserted_text l1) +:+ inserted_text l2).
  by rewrite IH, string_append_assoc.
Qed.

Lemma streamed_texts_cons (op : pump_step) ops :
  streamed_texts (op :: ops) = streamed_texts [op] ++ streamed_texts ops.
Proof. by destruct op. Qed.

Lemma pending_with_pending lg p rec buf st :
  pending_with lg p rec buf st → pending lg p st.
Proof. intros (o & Ho & Hothers & n & Hc). exists o. eauto. Qed.

(** Once the record is settled nothing is recorded any more, and nothing can
    be streamed. *)
Lemma run_step_settled_trace st op st' :
  settled st → run_step st op = Some st' →
  trace (the_world st') = trace (the_world st) ∧ streamed_texts [op] = [].
Proof.
  intros Hs. destruct op as [src dst|a text| | |a]; simpl.
  - destruct (objects st !! src) as [that|]; [|done].
    destruct (objects st !! dst); [done|]. by intros [= <-].
  - destruct (objects st !! a) as [self|] eqn:Ha; [|done].
    by rewrite (Hs _ _ Ha).
  - by intros [= <-].
  - by intros [= <-].
  - destruct (objects st !! a) as [self|] eqn:Ha; [|done].
    rewrite (Hs _ _ Ha), record_pump_dtor_null. by intros [= <-].
Qed.

Lemma run_steps_settled_trace ops : ∀ st st',
  settled st → run_steps st ops = Some st' →
  trace (the_world st') = trace (the_world st) ∧ streamed_texts ops = [].
Proof.
  induction ops as [|op ops IH]; intros st st' Hs.
  - simpl. by intros [= <-].
  - simpl run_steps. destruct (run_step st op) as [st1|] eqn:Hstep; [|done].
    destruct (run_step_settled _ _ _ Hs Hstep) as (Hs1 & _).
    destruct (run_step_settled_trace _ _ _ Hs Hstep) as (Ht1 & Hx1).
    intros Hrun. destruct (IH _ _ Hs1 Hrun) as (Ht & Hx).
    rewrite streamed_texts_cons, Hx1, Hx, Ht, Ht1. done.
Qed.

(** One step while the record is pending: the text of an insertion goes to
    the end of the buffer and nothing is recorded, or the owner is destroyed
    and the calls it makes are recorded. *)
Lemma run_step_pending_with lg p rec buf st op st' :
  pending_with lg p rec buf st → run_step st op = Some st' →
  (pending_with lg p rec (buf +:+ inserted_text (streamed_texts [op])) st' ∧
   trace (the_world st') = trace (the_world st) ∧
   uncaught_exception (the_world st')
   = flag_after op (uncaught_exception (the_world st)))
  ∨ (settled st' ∧ streamed_texts [op] = [] ∧
     trace (the_world st')
     = trace (the_world st) ++
       (if uncaught_exception (the_world st) then []
        else [ev_push_record lg {| attribute_values := attribute_values rec;
                                    message_text := message_text rec +:+ buf |}]) ++
       [ev_release_compound (Some p)]).
Proof.
  intros (o & Ho & Hothers & n & Hc). destruct op as [src dst|a text| | |a]; simpl.
  - destruct (objects st !! src) as [that|] eqn:Hsrc; [|done].
    destruct (objects st !! dst) eqn:Hdst; [done|].
    intros [= <-]. left. rewrite string_append_nil_r. split_and!; try done.
    destruct (decide (src = o)) as [->|Hne].
    + assert (that = owner_pump lg p) as -> by congruence.
      exists dst. simpl. rewrite lookup_insert_eq. split_and!; [done| |eauto].
      intros a q Ha. rewrite lookup_insert_ne by done. rewrite lookup_insert.
      case_decide; [by intros [= <-]|]. apply Hothers. congruence.
    + exists o. simpl. rewrite (Hothers _ _ Hne Hsrc). simpl.
      assert (dst ≠ o) by congruence.
      rewrite !lookup_insert_ne by done. split_and!; [done| |eauto].
      intros a q Ha. rewrite !lookup_insert. repeat case_decide; try by intros [= <-].
      by apply Hothers.
  - destruct (objects st !! a) as [self|] eqn:Ha; [|done].
    destruct (decide (a = o)) as [->|Hne].
    2: { by rewrite (Hothers _ _ Hne Ha). }
    assert (self = owner_pump lg p) as -> by congruence.
    unfold record_pump_stream. simpl. rewrite Hc. simpl.
    intros [= <-]. left. split_and!; try done.
    exists o. simpl. split_and!; try done.
    exists n. rewrite lookup_alter, decide_True by done. rewrite Hc. simpl.
    unfold stream_insert. simpl.
    change (inserted_text [text]) with (text +:+ "").
    by rewrite string_append_nil_r.
  - intros [= <-]. left. rewrite string_append_nil_r. split_and!; try done.
    exists o. eauto.
  - intros [= <-]. left. rewrite string_append_nil_r. split_and!; try done.
    exists o. eauto.
  - destruct (objects st !! a) as [self|] eqn:Ha; [|done].
    destruct (decide (a = o)) as [->|Hne].
    + assert (self = owner_pump lg p) as -> by congruence.
      assert (Hsettled : ∀ w', settled {| objects := delete o (objects st);
                                          the_world := w' |}).
      { intros w' b q. simpl. intros Hb. apply lookup_delete_Some in Hb as [Hb1 Hb2].
        apply (Hothers b); done. }
      unfold record_pump_dtor, compound_get_record. simpl.
      destruct (uncaught_exception (the_world st)) eqn:Hu.
      * intros [= <-]. right. split_and!; [apply Hsettled|done|done].
      * rewrite Hc. simpl. intros [= <-]. right.
        split_and!; [apply Hsettled|done|]. simpl. by rewrite <- app_assoc.
    + rewrite (Hothers _ _ Hne Ha), record_pump_dtor_null. intros [= <-]. left.
      rewrite string_append_nil_r. split_and!; try done.
      exists o. simpl. rewrite lookup_delete_ne by done. split_and!; [done| |eauto].
      intros b q Hb Hq. apply lookup_delete_Some in Hq as [_ Hq]. by apply (Hothers b).
Qed.

(** A run while the record is pending: either the record is still pending,
    with everything streamed so far in the buffer and nothing recorded, or
    the owner has been destroyed, and then the compound has been released,
    after the push (if there was one) of the record with everything streamed
    in the run at the end of its message. *)
Lemma run_steps_pending_with lg p rec ops : ∀ buf st st',
  pending_with lg p rec buf st → run_steps st ops = Some st' →
  (pending_with lg p rec (buf +:+ inserted_text (streamed_texts ops)) st' ∧
   trace (the_world st') = trace (the_world st))
  ∨ (settled st' ∧ ∃ pushed : bool,
       trace (the_world st')
       = trace (the_world st) ++
         (if pushed
          then [ev_push_record lg
                  {| attribute_values := attribute_values rec;
                     message_text :=
                       message_text rec +:+ (buf +:+ inserted_text (streamed_texts ops)) |}]
          else []) ++
         [ev_release_compound (Some p)] ∧
       (uncaught_exception (the_world st) = false →
        forallb (λ op, negb (raises op)) ops = true → pushed = true) ∧
       (uncaught_exception (the_world st) = true →
        forallb (λ op, negb (catches op)) ops = true → pushed = false)).
Proof.
  induction ops as [|op ops IH]; intros buf st st' Hpend.
  - simpl. intros [= <-]. left. by rewrite string_append_nil_r.
  - simpl run_steps. destruct (run_step st op) as [st1|] eqn:Hstep; [|done].
    intros Hrun. rewrite streamed_texts_cons, inserted_text_app, <- string_append_assoc.
    destruct (run_step_pending_with _ _ _ _ _ _ _ Hpend Hstep)
      as [(Hpend1 & Ht1 & Hu1)|(Hs1 & Hx1 & Ht1)].
    + destruct (IH _ _ _ Hpend1 Hrun) as [(Hpend' & Ht')|(Hs' & pushed & Ht' & Hclean & Hunw)].
      * left. split; [done|congruence].
      * right. split; [done|]. exists pushed. rewrite Ht', Ht1. split_and!; [done| |].
        -- intros Hu Hall. apply andb_prop in Hall as [Hop Hall].
           apply Hclean; [|done]. rewrite Hu1, Hu. by destruct op.
        -- intros Hu Hall. apply andb_prop in Hall as [Hop Hall].
           apply Hunw; [|done]. rewrite Hu1, Hu. by destruct op.
    + destruct (run_steps_settled _ _ _ Hs1 Hrun) as (Hs' & _).
      destruct (run_steps_settled_trace _ _ _ Hs1 Hrun) as (Ht' & Hx').
      right. split; [done|]. rewrite Hx1, Hx'. simpl.
      rewrite !string_append_nil_r.
      exists (negb (uncaught_exception (the_world st))). rewrite Ht', Ht1.
      by destruct (uncaught_exception (the_world st)).
Qed.

Lemma start_statement_pending_with a lg rec w :
  pending_with lg (fresh (dom (compounds w))) rec "" (start_statement a lg rec w).
Proof.
  exists a. unfold start_statement. simpl.
  rewrite lookup_singleton_eq, lookup_insert_eq. split_and!; [done| |eauto].
  intros b q Hb Hq. by rewrite lookup_singleton_ne in Hq.
Qed.

(** C10. The destructor of the pump that owns the logger and the compound
    pushes the composed record, which is the record the stream adopted with
    the streamed text at the end of its message, to the logger once and then
    releases the compound; with an exception in flight it pushes nothing and
    still releases the compound. The copy constructor hands both pointers to
    the new object and nulls the source, whose destructor then does nothing.
    So over the pump objects of one statement, however they are copied and in
    whatever order they are destroyed, the record is pushed at most once and
    the compound released at most once, and what is recorded is nothing, or
    the release alone, or the push of the opened record with everything that
    was streamed, in order, followed by the release; when all pump objects
    are destroyed the compound has been released exactly once and, no
    exception having been in flight, exactly that record has been pushed
    exactly once. *)
Theorem record_pump_pushes_once lg rec w :
  (∀ p c, compounds w !! p = Some c → uncaught_exception w = false →
     ∃ w', record_pump_dtor (owner_pump lg p) w = Some w' ∧
           trace w' = trace w ++ [ev_push_record lg (fst (get_record (stream c)));
                                  ev_release_compound (Some p)] ∧
           fst (get_record (stream c))
           = {| attribute_values := attribute_values (m_Record (stream c));
                message_text := message_text (m_Record (stream c)) +:+ buffer (stream c) |}) ∧
  (∀ p, uncaught_exception w = true →
     ∃ w', record_pump_dtor (owner_pump lg p) w = Some w' ∧
           trace w' = trace w ++ [ev_release_compound (Some p)]) ∧
  (∀ that, m_pLogger (fst (record_pump_copy that)) = m_pLogger that ∧
           m_pStreamCompound (fst (record_pump_copy that)) = m_pStreamCompound that ∧
           m_pLogger (snd (record_pump_copy that)) = None ∧
           m_pStreamCompound (snd (record_pump_copy that)) = None ∧
           record_pump_dtor (snd (record_pump_copy that)) w = Some w) ∧
  (∀ a ops st', run_steps (start_statement a lg rec w) ops = Some st' →
     pushes (the_world st') ≤ pushes w + 1 ∧
     releases (the_world st') ≤ releases w + 1 ∧
     (uncaught_exception w = true →
      forallb (λ op, negb (catches op)) ops = true →
      pushes (the_world st') = pushes w) ∧
     (objects st' = ∅ →
        releases (the_world st') = releases w + 1 ∧
        (uncaught_exception w = false →
         forallb (λ op, negb (raises op)) ops = true →
         pushes (the_world st') = pushes w + 1))) ∧
  (∀ a ops st', run_steps (start_statement a lg rec w) ops = Some st' →
     (trace (the_world st') = trace w ∨
      trace (the_world st')
      = trace w ++ [ev_release_compound (Some (fresh (dom (compounds w))))] ∨
      trace (the_world st')
      = trace w ++ [ev_push_record lg (composed_record rec (streamed_texts ops));
                    ev_release_compound (Some (fresh (dom (compounds w))))]) ∧
     (objects st' = ∅ → uncaught_exception w = false →
      forallb (λ op, negb (raises op)) ops = true →
      trace (the_world st')
      = trace w ++ [ev_push_record lg (composed_record rec (streamed_texts ops));
                    ev_release_compound (Some (fresh (dom (compounds w))))])).
Proof.
  split_and!.
  - intros p c Hc Hu.
    destruct (record_pump_dtor_owner_clean lg p c w Hc Hu) as (w' & Hd & Ht & _).
    eauto.
  - intros p Hu. rewrite record_pump_dtor_owner_unwinding by done. eauto.
  - intros that. done.
  - intros a ops st' Hrun.
    destruct (start_statement_pending a lg rec w) as (p & Hpend & Hp & Hr & Hu).
    destruct (run_steps_pending lg p ops _ _ Hpend Hrun) as (Hle & Hrel & Hunw & Hend).
    rewrite Hp, Hr, Hu in *. split_and!; [lia|done|done|done].
  - intros a ops st' Hrun.
    pose proof (start_statement_pending_with a lg rec w) as Hpend.
    destruct (run_steps_pending_with _ _ _ ops _ _ _ Hpend Hrun)
      as [((o & Ho & _) & Ht)|(Hs & pushed & Ht & Hclean & _)].
    + split; [by left|]. intros Hempty. rewrite Hempty in Ho. done.
    + change (trace (the_world (start_statement a lg rec w))) with (trace w) in Ht.
      change (uncaught_exception (the_world (start_statement a lg rec w)))
        with (uncaught_exception w) in Hclean.
      split.
      * right. destruct pushed; [right|left]; exact Ht.
      * intros _ Hu Hall. rewrite (Hclean Hu Hall) in Ht. exact Ht.
Qed.

End RecordPumpProperties.


Section VisitationUses.

Context {type_id : Type} `{EqDecision type_id} {payload : Type}.

Implicit Types (c : attribute_value type_id payload) (T : type_id) (v : payload).
Implicit Types (types : list type_id) (attrs : attribute_values_view type_id payload).
Implicit Types (self : value_visitor_invoker type_id).

Lemma existsb_holds types c :
  existsb (λ T, holds T c) types = true ↔ ∃ T v, T ∈ types ∧ m_pImpl c = Some (T, v).
Proof.
  rewrite existsb_exists. split.
  - intros (T & Hin & Hh). apply holds_iff_stored in Hh as [v Hv].
    exists T, v. by rewrite list_elem_of_In.
  - intros (T & v & Hin & Hc). exists T. rewrite <- list_elem_of_In.
    split; [done|]. apply holds_iff_stored. eauto.
Qed.

Lemma existsb_holds_false types c :
  existsb (λ T, holds T c) types = false ↔ ∀ T, T ∈ types → holds T c = false.
Proof.
  split.
  - intros He T Hin. destruct (holds T c) eqn:Hh; [|done].
    assert (existsb (λ T, holds T c) types = true); [|congruence].
    apply existsb_exists. exists T. by rewrite <- list_elem_of_In.
  - intros Hno. destruct (existsb _ types) eqn:He; [|done].
    apply existsb_exists in He as (T & Hin & Hh).
    rewrite <- list_elem_of_In in Hin. rewrite (Hno T Hin) in Hh. done.
Qed.

(** The boolean conversion of the invoker's result is true exactly when the
    code is [ok], that is when the name was found with a candidate type and
    the visitor has been applied; [operator!] is its negation. *)
Theorem visitation_result_bool_iff_visited {S} self attrs
    (visitor : visitor_type type_id payload S) s r s' :
  value_visitor_invoker_call self attrs visitor s = (Returns r, s') →
  visitation_result_not r = negb (visitation_result_bool r) ∧
  (visitation_result_bool r = true ↔ code r = ok) ∧
  (visitation_result_bool r = true ↔
     ∃ c T v, find attrs (m_Name self) = Some c ∧ T ∈ value_types self ∧
              m_pImpl c = Some (T, v) ∧ visitor T v s = (Returns (), s')).
Proof.
  intros Hcall. split; [by destruct r as [[]]|]. split; [by destruct r as [[]]|].
  destruct (find attrs (m_Name self)) as [c|] eqn:Hf.
  - destruct (candidates_match_or_not (value_types self) c) as [(T & v & Hin & Hc)|Hno].
    + rewrite (invoker_call_match _ _ _ _ _ _ _ Hf Hin Hc) in Hcall.
      destruct (visitor T v s) as [[[]|[e|d]] s1] eqn:Hv; try done.
      injection Hcall as <- <-. split; [|done]. intros _. exists c, T, v. by rewrite Hv.
    + rewrite (invoker_call_no_match _ _ _ _ _ Hf Hno) in Hcall.
      injection Hcall as <- <-. split; [done|].
      intros (c' & T & v & [= <-] & Hin & Hc & _).
      assert (holds T c = true) by (apply holds_iff_stored; eauto).
      rewrite (Hno T Hin) in *. done.
  - rewrite (invoker_call_absent _ _ _ _ Hf) in Hcall.
    injection Hcall as <- <-. split; [done|]. by intros (c' & T & v & [=] & _).
Qed.

(** With [nop] as the visitor, [visit] is a test: it never raises, leaves the
    state as it is, and its code tells whether the name is absent, present
    with a candidate type, or present with another type. *)
Theorem visit_nop_is_a_test {S} types (name : attribute_name) attrs (s : S) :
  visit types name attrs nop s
  = (Returns (mk_visitation_result
                match attrs !! name with
                | None => value_not_found
                | Some c => if existsb (λ T, holds T c) types then ok
                            else value_has_invalid_type
                end), s).
Proof.
  unfold visit. set (self := mk_value_visitor_invoker types name).
  destruct (attrs !! name) as [c|] eqn:Hf.
  - destruct (existsb (λ T, holds T c) types) eqn:He.
    + apply existsb_holds in He as (T & v & Hin & Hc).
      by rewrite (invoker_call_match self attrs nop c T v s Hf Hin Hc).
    + rewrite existsb_holds_false in He.
      by rewrite (invoker_call_no_match self attrs nop c s Hf He).
  - by rewrite (invoker_call_absent self attrs nop s Hf).
Qed.

(** The candidate list matters only through its members. An invoker over a
    larger candidate list does exactly what the one over the smaller list
    does, unless that one reports a wrong type; two lists with the same
    members (whatever their order and repetitions) give the same invoker. *)
Theorem invoker_candidates_inclusion {S} (name : attribute_name) (l1 l2 : list type_id)
    attrs (visitor : visitor_type type_id payload S) s :
  ((∀ T, T ∈ l1 → T ∈ l2) →
   fst (value_visitor_invoker_call (mk_value_visitor_invoker l1 name) attrs visitor s)
   ≠ Returns (mk_visitation_result value_has_invalid_type) →
   value_visitor_invoker_call (mk_value_visitor_invoker l2 name) attrs visitor s
   = value_visitor_invoker_call (mk_value_visitor_invoker l1 name) attrs visitor s) ∧
  ((∀ T, T ∈ l1 ↔ T ∈ l2) →
   value_visitor_invoker_call (mk_value_visitor_invoker l2 name) attrs visitor s
   = value_visitor_invoker_call (mk_value_visitor_invoker l1 name) attrs visitor s).
Proof.
  set (i1 := mk_value_visitor_invoker l1 name).
  set (i2 := mk_value_visitor_invoker l2 name).
  destruct (attrs !! name) as [c|] eqn:Hf.
  2: { rewrite (invoker_call_absent i1 attrs visitor s Hf),
         (invoker_call_absent i2 attrs visitor s Hf). done. }
  destruct (candidates_match_or_not l1 c) as [(T & v & Hin & Hc)|Hno1].
  - rewrite (invoker_call_match i1 attrs visitor c T v s Hf Hin Hc). split.
    + intros Hsub _. by rewrite (invoker_call_match i2 attrs visitor c T v s Hf (Hsub T Hin) Hc).
    + intros Hsame.
      by rewrite (invoker_call_match i2 attrs visitor c T v s Hf (proj1 (Hsame T) Hin) Hc).
  - rewrite (invoker_call_no_match i1 attrs visitor c s Hf Hno1). split; [done|].
    intros Hsame. rewrite (invoker_call_no_match i2 attrs visitor c s Hf); [done|].
    intros T Hin. apply Hno1, Hsame, Hin.
Qed.

End VisitationUses.

Section DateTimeTypes.

Context {payload S : Type}.

Implicit Types (attrs : attribute_values_view date_time_type payload).
Implicit Types (visitor : visitor_type date_time_type payload S).

Lemma date_types_unfold :
  date_types
  = [gregorian_date; std_time_t; std_tm; posix_time_ptime; local_time_local_date_time].
Proof. reflexivity. Qed.

(** [date_types] is [gregorian::date] followed by the date-and-time types,
    without repetition, and shares no type with the duration and period
    sequences. So a value of a time type is visited through [date_types]
    exactly as through [time_types], while an invoker over
    [time_duration_types] or [time_period_types] reports it as a value of the
    wrong type without touching the state. *)
Theorem date_types_cover_time_types (name : attribute_name) attrs visitor s c T v :
  attrs !! name = Some c → m_pImpl c = Some (T, v) → T ∈ time_types →
  NoDup date_types ∧
  (∀ T', T' ∈ date_types ↔ T' = gregorian_date ∨ T' ∈ date_time_types) ∧
  (∀ T', T' ∈ date_types → (T' ∉ time_duration_types) ∧ (T' ∉ time_period_types)) ∧
  value_visitor_invoker_call (mk_value_visitor_invoker date_types name) attrs visitor s
  = value_visitor_invoker_call (mk_value_visitor_invoker time_types name) attrs visitor s ∧
  value_visitor_invoker_call (mk_value_visitor_invoker time_duration_types name)
    attrs visitor s
  = (Returns (mk_visitation_result value_has_invalid_type), s) ∧
  value_visitor_invoker_call (mk_value_visitor_invoker time_period_types name)
    attrs visitor s
  = (Returns (mk_visitation_result value_has_invalid_type), s).
Proof.
  intros Hf Hc Hin.
  assert (Hsub : ∀ T', T' ∈ time_types → T' ∈ date_types).
  { intros T'. rewrite date_types_unfold. unfold time_types, date_time_types, joint_view.
    simpl. apply list_elem_of_further. }
  assert (Hdisj : ∀ T', T' ∈ date_types →
                        (T' ∉ time_duration_types) ∧ (T' ∉ time_period_types)).
  { intros T'. rewrite date_types_unfold.
    unfold time_duration_types, time_period_types, joint_view. simpl.
    rewrite !list_elem_of_In. simpl. intuition congruence. }
  assert (Hother : ∀ l, (∀ T', T' ∈ l → T' ∉ date_types) →
            value_visitor_invoker_call (mk_value_visitor_invoker l name) attrs visitor s
            = (Returns (mk_visitation_result value_has_invalid_type), s)).
  { intros l Hl. apply (invoker_call_no_match _ _ _ c); [done|].
    intros T' HT'. simpl in HT'. destruct (holds T' c) eqn:Hh; [|done].
    apply holds_iff_stored in Hh as [v' Hv']. assert (T' = T) as -> by congruence.
    destruct (Hl T HT' (Hsub T Hin)). }
  split_and!.
  - rewrite date_types_unfold.
    repeat (apply NoDup_cons;
            split; [rewrite list_elem_of_In; simpl; intuition congruence|]).
    apply NoDup_nil_2.
  - intros T'. rewrite date_types_unfold. unfold date_time_types, joint_view. simpl.
    rewrite !list_elem_of_In. simpl. intuition congruence.
  - done.
  - set (i1 := mk_value_visitor_invoker time_types name).
    set (i2 := mk_value_visitor_invoker date_types name).
    rewrite (invoker_call_match i1 attrs visitor c T v s Hf Hin Hc).
    by rewrite (invoker_call_match i2 attrs visitor c T v s Hf (Hsub T Hin) Hc).
  - apply Hother. intros T' HT' Hd. by destruct (Hdisj T' Hd).
  - apply Hother. intros T' HT' Hd. by destruct (Hdisj T' Hd).
Qed.

End DateTimeTypes.

Section FormatterProperties.

Context {type_id : Type} `{EqDecision type_id} {payload S : Type}.
Context (message_get_name : attribute_name) (message_value_type : list type_id).
Context (output_fun : visitor_type type_id payload S).

Implicit Types (rec : record type_id payload) (c : attribute_value type_id payload).

Local Abbreviation default_call :=
  (basic_formatter_call
     (basic_formatter_ctor message_get_name message_value_type output_fun)).

(** The default formatter puts the message of the record to the stream and
    nothing else: when the record has no message attribute, or one of another
    type, the call returns normally with the stream untouched (the visitation
    result is dropped); when the output function raises an object derived
    from [exception], the error leaves with the message attribute's name
    attached. A formatter that has been reset formats as the default one does,
    whatever function it held. *)
Theorem default_formatter_outputs_message rec s :
  (attribute_values rec !! message_get_name = None →
     default_call rec s = (Returns (), s)) ∧
  (∀ c, attribute_values rec !! message_get_name = Some c →
     (∀ T, T ∈ message_value_type → holds T c = false) →
     default_call rec s = (Returns (), s)) ∧
  (∀ c T v, attribute_values rec !! message_get_name = Some c →
     T ∈ message_value_type → m_pImpl c = Some (T, v) →
     match output_fun T v s with
     | (Returns _, s') => default_call rec s = (Returns (), s')
     | (Throws (thrown_exception e), s') =>
         default_call rec s
         = (Throws (thrown_exception (attach_attribute_name_info e message_get_name)), s')
     | (Throws (thrown_other d), s') =>
         default_call rec s = (Throws (thrown_other d), s')
     end) ∧
  (∀ f fun_,
     basic_formatter_call (basic_formatter_assign_fun f fun_) rec s = fun_ rec s ∧
     basic_formatter_call
       (basic_formatter_reset message_get_name message_value_type output_fun
          (basic_formatter_assign_fun f fun_)) rec s
     = default_call rec s).
Proof.
  unfold basic_formatter_call, basic_formatter_ctor, default_formatter_call,
    visit_record, value_visitor_invoker_call_record. simpl.
  set (i := mk_value_visitor_invoker message_value_type message_get_name).
  split_and!.
  - intros Hf. unfold bind.
    by rewrite (invoker_call_absent i (attribute_values rec) output_fun s Hf).
  - intros c Hf Hno. unfold bind.
    by rewrite (invoker_call_no_match i (attribute_values rec) output_fun c s Hf Hno).
  - intros c T v Hf Hin Hc. unfold bind.
    rewrite (invoker_call_match i (attribute_values rec) output_fun c T v s Hf Hin Hc).
    by destruct (output_fun T v s) as [[[]|[e|d]] s'].
  - done.
Qed.

End FormatterProperties.

Section TerminalProperties.

Context {type_id : Type} `{EqDecision type_id} {payload : Type}.

Implicit Types (c : attribute_value type_id payload) (T : type_id) (v D : payload).
Implicit Types (t : attribute_terminal type_id payload) (d : keyword_descriptor type_id).
Implicit Types (env : environment type_id payload).

(** When the keyword's attribute is in the set with a candidate type, the
    bare keyword and the terminals built by [or_none], [or_throw] and
    [or_default] all yield the stored value: the policies differ on failure
    only. *)
Theorem keyword_policies_agree_on_success d env c T v D :
  at_c_0 (args env) !! get_name d = Some c →
  T ∈ value_type d → m_pImpl c = Some (T, v) →
  keyword_terminal_call d env = Returns (Some v) ∧
  attribute_terminal_eval (attribute_keyword_or_none d) env = Returns (Some v) ∧
  attribute_terminal_eval (attribute_keyword_or_throw d) env = Returns (Some v) ∧
  attribute_terminal_eval (attribute_keyword_or_default d D) env = Returns (Some v).
Proof.
  intros Hf Hin Hc.
  unfold keyword_terminal_call, attribute_terminal_eval, extractor_adapter_call,
    value_extractor_call. simpl. unfold attribute_keyword_get_name.
  rewrite (extract_match _ _ _ _ _ _ Hf Hin Hc). done.
Qed.


(** The terminal [attr<T>(name)] extracts by [name] from element 0 of the
    arguments with the to-none policy: it never raises, it yields a value
    exactly when that value is stored under the name with a candidate type,
    and it yields the empty result exactly when the name is absent or stored
    with another type. *)
Theorem attr_terminal_eval (AttributeValueT : list type_id) (name : attribute_name) env :
  attribute_terminal_get_name (attr (payload := payload) AttributeValueT name) = name ∧
  (∀ e, attribute_terminal_eval (attr AttributeValueT name) env ≠ Throws e) ∧
  (∀ v, attribute_terminal_eval (attr AttributeValueT name) env = Returns (Some v) ↔
        ∃ c T, at_c_0 (args env) !! name = Some c ∧ T ∈ AttributeValueT ∧
               m_pImpl c = Some (T, v)) ∧
  (attribute_terminal_eval (attr AttributeValueT name) env = Returns None ↔
     at_c_0 (args env) !! name = None ∨
     ∃ c, at_c_0 (args env) !! name = Some c ∧
          ∀ T, T ∈ AttributeValueT → holds T c = false).
Proof.
  unfold attribute_terminal_eval, extractor_adapter_call, value_extractor_call. simpl.
  pose proof (extract_cases AttributeValueT name (at_c_0 (args env))) as Hcases.
  destruct (extract AttributeValueT name (at_c_0 (args env))) as [v0| |]; simpl.
  - destruct Hcases as (c & T & Hf & Hin & Hc). split_and!; try done.
    + intros v. split.
      * intros [= <-]. eauto.
      * intros (c' & T' & Hf' & _ & Hc'). congruence.
    + split; [done|]. intros [Hn|(c' & Hf' & Hno)]; [congruence|].
      assert (c' = c) as -> by congruence.
      assert (holds T c = true) by (apply holds_iff_stored; eauto).
      rewrite (Hno T Hin) in *. done.
  - split_and!; try done; [|by split; auto].
    intros v. split; [done|]. intros (c & T & Hf & _). congruence.
  - destruct Hcases as (c & Hf & Hno). split_and!; try done; [|by split; eauto].
    intros v. split; [done|]. intros (c' & T & Hf' & Hin & Hc).
    assert (c' = c) as -> by congruence.
    assert (holds T c = true) by (apply holds_iff_stored; eauto).
    rewrite (Hno T Hin) in *. done.
Qed.

End TerminalProperties.

Section LogStatementProperties.

Context {type_id payload : Type}.

Implicit Types (w : world type_id payload) (st : pump_state type_id payload).
Implicit Types (rec : record type_id payload).

Lemma run_steps_app ops1 : ∀ ops2 st,
  run_steps st (ops1 ++ ops2)
  = match run_steps st ops1 with
    | Some st1 => run_steps st1 ops2
    | None => None
    end.
Proof.
  induction ops1 as [|op ops1 IH]; intros ops2 st; simpl; [done|].
  destruct (run_step st op); [apply IH|done].
Qed.

Lemma run_steps_singleton st op : run_steps st [op] = run_step st op.
Proof. simpl. by destruct (run_step st op). Qed.

Lemma start_statement_owner_state lg rec w :
  start_statement 0 lg rec w = owner_state lg (fresh (dom (compounds w))) 0 rec "" w.
Proof. done. Qed.

(** A move hands the ownership to the next address and leaves the world
    as it is. *)
Lemma run_steps_moves lg p rec buf w0 moves : ∀ o,
  run_steps (owner_state lg p o rec buf w0) (moves_steps moves o)
  = Some (owner_state lg p (o + moves) rec buf w0).
Proof.
  induction moves as [|k IH]; intros o; simpl.
  - by rewrite Nat.add_0_r.
  - rewrite lookup_singleton_eq, lookup_singleton_ne by lia. simpl.
    rewrite lookup_insert_ne, lookup_insert_eq by lia. simpl.
    replace (o + Datatypes.S k) with (Datatypes.S o + k) by lia.
    rewrite <- IH. f_equal. unfold owner_state. f_equal.
    apply map_eq. intros i.
    destruct (decide (i = o)) as [->|Hio].
    + rewrite lookup_delete_eq, lookup_singleton_ne by lia. done.
    + rewrite lookup_delete_ne by done.
      destruct (decide (i = Datatypes.S o)) as [->|HiS].
      * by rewrite lookup_insert_eq, lookup_singleton_eq.
      * rewrite !lookup_insert_ne, !lookup_singleton_ne by done. done.
Qed.

(** Insertions accumulate in the stream buffer, in order. *)
Lemma run_steps_inserts lg p o rec w0 texts : ∀ buf,
  run_steps (owner_state lg p o rec buf w0) (step_insert o <$> texts)
  = Some (owner_state lg p o rec (buf +:+ inserted_text texts) w0).
Proof.
  induction texts as [|text texts IH]; intros buf; simpl.
  - by rewrite string_append_nil_r.
  - rewrite lookup_singleton_eq. simpl. unfold record_pump_stream. simpl.
    rewrite lookup_insert_eq. simpl.
    rewrite <- string_append_assoc, <- IH. f_equal.
    unfold owner_state, set_stream, stream_insert. simpl. do 2 f_equal.
    apply map_eq. intros i. rewrite lookup_alter.
    destruct (decide (p = i)) as [->|Hne].
    + by rewrite !lookup_insert_eq.
    + by rewrite !lookup_insert_ne.
Qed.

(** The destruction of the last pump object of the statement. *)
Lemma run_step_destroy_owner_state lg p o rec buf w0 :
  compounds w0 !! p = None →
  run_step (owner_state lg p o rec buf w0) (step_destroy o)
  = Some {| objects := ∅;
            the_world :=
              {| compounds := compounds w0;
                 uncaught_exception := uncaught_exception w0;
                 trace := trace w0 ++
                   (if uncaught_exception w0 then [] else
                      [ev_push_record lg
                         {| attribute_values := attribute_values rec;
                            message_text := message_text rec +:+ buf |}]) ++
                   [ev_release_compound (Some p)] |} |}.
Proof.
  intros Hfresh. simpl. rewrite lookup_singleton_eq.
  unfold record_pump_dtor, compound_get_record, release_compound, push_record. simpl.
  assert (Hdel : ∀ c1 : stream_compound type_id payload,
            delete p (<[p := c1]> (compounds w0)) = compounds w0).
  { intros c1. apply map_eq. intros i. destruct (decide (i = p)) as [->|Hne].
    - by rewrite lookup_delete_eq.
    - by rewrite lookup_delete_ne, lookup_insert_ne. }
  destruct (uncaught_exception w0) eqn:Hu; simpl.
  - rewrite delete_singleton_eq, Hdel. done.
  - rewrite lookup_insert_eq. simpl. rewrite delete_singleton_eq.
    do 3 f_equal.
    + apply map_eq. intros i. destruct (decide (i = p)) as [->|Hne].
      * by rewrite lookup_delete_eq.
      * by rewrite lookup_delete_ne, !lookup_insert_ne.
    + by rewrite <- app_assoc.
Qed.

Lemma fresh_compound_unused w : compounds w !! fresh (dom (compounds w)) = None.
Proof. apply not_elem_of_dom, is_fresh. Qed.

(** The whole statement, for either state of the uncaught-exception flag. *)
Lemma statement_result moves lg rec texts w :
  BOOST_LOG_STREAM_INTERNAL moves lg (Some rec) texts w
  = Some {| compounds := compounds w;
            uncaught_exception := uncaught_exception w;
            trace := trace w ++
              (if uncaught_exception w then []
               else [ev_push_record lg (composed_record rec texts)]) ++
              [ev_release_compound (Some (fresh (dom (compounds w))))] |}.
Proof.
  unfold BOOST_LOG_STREAM_INTERNAL, statement_steps.
  rewrite start_statement_owner_state, run_steps_app, run_steps_moves.
  rewrite Nat.add_0_l, run_steps_app, run_steps_inserts, run_steps_singleton.
  rewrite run_step_destroy_owner_state by apply fresh_compound_unused.
  done.
Qed.

(** A logging statement on a valid record, run while no exception is in
    flight, calls [push_record] once and then [release_compound] once, and
    neither of them again: it pushes to the logger the opened record with
    everything that was streamed, in order, at the end of its message, and
    then releases its compound; the compounds in use afterwards are those in
    use before, however many times the pump was moved on its way. On an
    invalid record the statement makes neither call and leaves the compounds
    alone. *)
Theorem log_statement_pushes_composed_record moves lg rec texts w :
  uncaught_exception w = false →
  BOOST_LOG_STREAM_INTERNAL moves lg (Some rec) texts w
  = Some {| compounds := compounds w;
            uncaught_exception := false;
            trace := trace w ++
              [ev_push_record lg (composed_record rec texts);
               ev_release_compound (Some (fresh (dom (compounds w))))] |} ∧
  BOOST_LOG_STREAM_INTERNAL moves lg None texts w = Some w.
Proof. intros Hu. rewrite statement_result, Hu. done. Qed.

(** A logging statement run while an exception is propagating (as from a
    destructor during stack unwinding) drops its record: nothing is pushed,
    the compound is released, and the compounds in use are as before. *)
Theorem log_statement_dropped_while_unwinding moves lg rec texts w :
  uncaught_exception w = true →
  BOOST_LOG_STREAM_INTERNAL moves lg (Some rec) texts w
  = Some {| compounds := compounds w;
            uncaught_exception := true;
            trace := trace w ++
              [ev_release_compound (Some (fresh (dom (compounds w))))] |} ∧
  (∀ w', BOOST_LOG_STREAM_INTERNAL moves lg (Some rec) texts w = Some w' →
         pushes w' = pushes w).
Proof.
  intros Hu. rewrite statement_result, Hu. split; [done|].
  intros w' [= <-]. unfold pushes. simpl.
  rewrite filter_app, length_app. simpl. lia.
Qed.

(** Every state a statement reaches has the record pending or settled. *)
Lemma run_steps_reach lg p ops : ∀ st st',
  pending lg p st ∨ settled st → run_steps st ops = Some st' →
  pending lg p st' ∨ settled st'.
Proof.
  induction ops as [|op ops IH]; intros st st' Hst; simpl.
  - by intros [= <-].
  - destruct (run_step st op) as [st1|] eqn:Hstep; [|done].
    apply IH. destruct Hst as [Hpend|Hs].
    + destruct (run_step_pending _ _ _ _ _ Hpend Hstep) as [(? & _)|(? & _)]; auto.
    + destruct (run_step_settled _ _ _ Hs Hstep) as (? & _); auto.
Qed.

(** At every point of a statement, a live pump object can be streamed into
    (its [stream()] assertion holds and yields the compound's stream) exactly
    when it still owns the logger, which is exactly when it is the one owner;
    a moved-from object never can, and no two live objects own. *)
Theorem stream_usable_iff_owner a lg rec w ops st b q :
  run_steps (start_statement a lg rec w) ops = Some st →
  objects st !! b = Some q →
  (is_Some (record_pump_stream q (the_world st)) ↔ is_Some (m_pLogger q)) ∧
  (is_Some (m_pLogger q) ↔ q = owner_pump lg (fresh (dom (compounds w)))) ∧
  (∀ b' q', objects st !! b' = Some q' → is_Some (m_pLogger q) →
            is_Some (m_pLogger q') → b' = b).
Proof.
  intros Hrun Hb.
  destruct (start_statement_pending a lg rec w) as (p0 & Hpend & _).
  assert (Hp0 : pending lg (fresh (dom (compounds w))) (start_statement a lg rec w)).
  { exists a. unfold start_statement. simpl.
    rewrite lookup_singleton_eq, lookup_insert_eq. split_and!; [done| |eauto].
    intros b' q' Hb' Hq'. by rewrite lookup_singleton_ne in Hq'. }
  clear p0 Hpend. set (p := fresh (dom (compounds w))) in *.
  assert (Hnull : ∀ w0 : world type_id payload,
            (is_Some (record_pump_stream null_pump w0) ↔ is_Some (m_pLogger null_pump)) ∧
            (is_Some (m_pLogger null_pump) ↔ null_pump = owner_pump lg p) ∧
            (∀ b' q', objects st !! b' = Some q' → is_Some (m_pLogger null_pump) →
                      is_Some (m_pLogger q') → b' = b)).
  { intros w0. unfold record_pump_stream. simpl. split_and!.
    - split; intros H; by apply is_Some_None in H.
    - split; [intros H; by apply is_Some_None in H|discriminate].
    - intros b' q' _ H. by apply is_Some_None in H. }
  destruct (run_steps_reach lg p ops _ _ (or_introl Hp0) Hrun)
    as [(o & Ho & Hothers & [c Hc])|Hs].
  - destruct (decide (b = o)) as [->|Hne].
    + assert (q = owner_pump lg p) as -> by congruence.
      unfold record_pump_stream. simpl. rewrite Hc. simpl. split_and!.
      * split; eauto.
      * split; eauto.
      * intros b' q' Hb' _ Hq'. destruct (decide (b' = o)) as [|Hne']; [done|].
        rewrite (Hothers _ _ Hne' Hb') in Hq'. by apply is_Some_None in Hq'.
    + rewrite (Hothers _ _ Hne Hb). apply Hnull.
  - rewrite (Hs _ _ Hb). apply Hnull.
Qed.

(** From the moment an exception starts to propagate in a statement until
    it is caught, no pump destructor pushes: over any steps that follow the
    raise and contain no catch, the number of records pushed stays what it
    was when the exception was raised. *)
Theorem no_push_after_raise a lg rec w ops1 ops2 st1 st' :
  run_steps (start_statement a lg rec w) ops1 = Some st1 →
  forallb (λ op, negb (catches op)) ops2 = true →
  run_steps st1 (step_raise :: ops2) = Some st' →
  pushes (the_world st') = pushes (the_world st1).
Proof.
  intros Hrun1 Hnocatch Hrun2.
  destruct (start_statement_pending a lg rec w) as (p & Hpend & _).
  simpl in Hrun2.
  destruct (run_steps_reach lg p ops1 _ _ (or_introl Hpend) Hrun1) as [Hp1|Hs1].
  - assert (Hp2 : pending lg p {| objects := objects st1;
                                  the_world := raise_exception (the_world st1) |}).
    { destruct Hp1 as (o & Ho & Hothers & Hc). by exists o. }
    destruct (run_steps_pending lg p ops2 _ _ Hp2 Hrun2) as (_ & _ & Hunw & _).
    by rewrite Hunw.
  - assert (Hs2 : settled {| objects := objects st1;
                             the_world := raise_exception (the_world st1) |}) by done.
    destruct (run_steps_settled ops2 _ _ Hs2 Hrun2) as (_ & Hpush & _).
    by rewrite Hpush.
Qed.

(** At every point of a statement, the destructor of any live pump object
    is defined: it never reads through a null or dangling compound pointer. *)
Theorem destructor_always_defined a lg rec w ops st b :
  run_steps (start_statement a lg rec w) ops = Some st →
  is_Some (objects st !! b) →
  is_Some (run_step st (step_destroy b)).
Proof.
  intros Hrun Hb.
  destruct (start_statement_pending a lg rec w) as (p & Hpend & _).
  apply (run_step_destroy_defined lg p); [|done].
  by apply (run_steps_reach lg p ops _ _ (or_introl Hpend)).
Qed.

End LogStatementProperties.

(** * Scenarios *)

Import Scenario.

Lemma value_visitor_invoker_call_codes_witness :
  value_visitor_invoker_call severity_invoker severity_set output_visitor []
  = (Returns (mk_visitation_result ok), [int_object 2]).
Proof.
  destruct (value_visitor_invoker_call_codes severity_invoker severity_set output_visitor [])
    as (_ & _ & Hok & _).
  apply (Hok (int_value 2) type_int (int_object 2)).
  - reflexivity.
  - apply list_elem_of_here.
  - reflexivity.
  - reflexivity.
Defined.

Lemma absent_name_is_not_found_witness :
  severity_set !! "Uptime" = None ∧
  value_visitor_invoker_call (mk_value_visitor_invoker [type_int] "Uptime")
    severity_set output_visitor []
  = (Returns (mk_visitation_result value_not_found), []).
Proof.
  split; [reflexivity|].
  apply (absent_name_is_not_found [type_int] "Uptime" severity_set output_visitor []).
  reflexivity.
Defined.

(** The visitor throws [std::runtime_error] on the found-and-typed value of
    ["Severity"]; the error that leaves the invoker carries no attribute
    name. *)
Lemma visitor_error_without_attribute_name :
  find severity_set (m_Name severity_invoker) = Some (int_value 2) ∧
  m_pImpl (int_value 2) = Some (type_int, int_object 2) ∧
  std_failing_visitor type_int (int_object 2) []
  = (Throws (thrown_other "std::runtime_error"), []) ∧
  value_visitor_invoker_call severity_invoker severity_set std_failing_visitor []
  = (Throws (thrown_other "std::runtime_error"), []) ∧
  thrown_attribute_name (thrown_other "std::runtime_error")
  ≠ Some (m_Name severity_invoker).
Proof. split_and!; [reflexivity..|discriminate]. Qed.

Lemma value_visitor_invoker_call_visitor_error_witness :
  ∃ t', value_visitor_invoker_call severity_invoker severity_set failing_visitor []
        = (Throws t', []) ∧
        thrown_attribute_name t' = Some "Severity".
Proof.
  destruct (value_visitor_invoker_call_visitor_error severity_invoker severity_set
              failing_visitor (int_value 2) type_int (int_object 2)
              (thrown_exception (mk_exception "conversion failed" None)) [] [])
    as (t' & Hcall & e' & Ht' & _ & _ & Hname).
  - reflexivity.
  - apply list_elem_of_here.
  - reflexivity.
  - reflexivity.
  - exists t'. split; [exact Hcall | exact Hname].
Defined.

Lemma value_visitor_invoker_call_frame_witness :
  fst (snd (value_visitor_invoker_call severity_invoker severity_set
              framed_output_visitor (severity_set, [])))
  = severity_set.
Proof.
  destruct (value_visitor_invoker_call_frame severity_invoker severity_set
              framed_output_visitor (severity_set, [])) as (_ & _ & Hframe).
  apply (Hframe fst).
  intros T v s0. reflexivity.
Defined.

Lemma attribute_value_visit_count_witness :
  ∃ r s', attribute_value_visit [type_string; type_int] (counted output_visitor)
            (int_value 2) ([], 0)
          = (r, (s', 1)).
Proof.
  destruct (attribute_value_visit_count [type_string; type_int] output_visitor
              (int_value 2) [] 0)
    as (r & s' & k & Hrun & _ & Hmatch & _).
  destruct Hmatch as [-> _].
  - exists type_int. split; [|reflexivity].
    apply list_elem_of_further, list_elem_of_here.
  - exists r, s'. exact Hrun.
Defined.

Lemma keyword_terminal_call_to_none_witness :
  keyword_terminal_call uptime_keyword severity_env = Returns None.
Proof.
  destruct (keyword_terminal_call_to_none uptime_keyword severity_env)
    as (_ & Habsent & _).
  apply Habsent. reflexivity.
Defined.

Lemma record_pump_pushes_once_witness :
  match run_steps (start_statement 0 7 hello_record empty_world) one_statement with
  | Some st' =>
      objects st' = ∅ ∧ pushes (the_world st') = 1 ∧ releases (the_world st') = 1 ∧
      trace (the_world st')
      = [ev_push_record 7 {| attribute_values := severity_set; message_text := "hello" |};
         ev_release_compound (Some 0)]
  | None => False
  end.
Proof.
  destruct (record_pump_pushes_once 7 hello_record empty_world)
    as (_ & _ & _ & Hrun & Htrace).
  specialize (Hrun 0 one_statement). specialize (Htrace 0 one_statement).
  destruct (run_steps (start_statement 0 7 hello_record empty_world) one_statement)
    as [st'|] eqn:Heq; [|vm_compute in Heq; discriminate].
  destruct (Hrun st' eq_refl) as (_ & _ & _ & Hend).
  destruct (Htrace st' eq_refl) as (_ & Hcomposed).
  assert (Hempty : objects st' = ∅).
  { vm_compute in Heq. injection Heq as <-. reflexivity. }
  destruct (Hend Hempty) as [Hrel Hpush].
  split; [exact Hempty|]. split; [apply Hpush; reflexivity|]. split; [exact Hrel|].
  rewrite (Hcomposed Hempty eq_refl eq_refl). reflexivity.
Defined.

Lemma fallback_to_default_laws_witness :
  value_extractor_call (mk_value_extractor [type_int] (fallback_to_default (int_object 7)))
    "Uptime" severity_set
  = Returns (Some (int_object 7)) ∧
  value_extractor_call (mk_value_extractor [type_string] (fallback_to_default (int_object 7)))
    "Severity" severity_set
  = Returns (Some (int_object 7)) ∧
  value_extractor_call (mk_value_extractor [type_int] (fallback_to_default (int_object 2)))
    "Severity" severity_set
  = Returns (Some (int_object 2)).
Proof.
  split_and!.
  - destruct (fallback_to_default_laws (int_object 7) "Uptime" [type_int] severity_set)
      as (_ & _ & _ & Habsent & _).
    apply Habsent. reflexivity.
  - destruct (fallback_to_default_laws (int_object 7) "Severity" [type_string] severity_set)
      as (_ & _ & _ & _ & Hwrong & _).
    apply (Hwrong (int_value 2)); [reflexivity|].
    intros T HT. apply list_elem_of_singleton in HT as ->. reflexivity.
  - destruct (fallback_to_default_laws (int_object 2) "Severity" [type_int] severity_set)
      as (_ & _ & _ & _ & _ & Hfound & _).
    apply (Hfound (int_value 2) type_int (int_object 2)).
    + reflexivity.
    + apply list_elem_of_here.
    + reflexivity.
Defined.

(** The extraction scenario: the set contains [{"Severity": int(2)}]. *)
Example extract_severity_int :
  extract [type_int] "Severity" severity_set = found_and_typed (int_object 2).
Proof. reflexivity. Qed.

Example extract_severity_string :
  extract [type_string] "Severity" severity_set = found_wrong_type.
Proof. reflexivity. Qed.

Example extract_uptime_int :
  extract [type_int] "Uptime" severity_set = not_found.
Proof. reflexivity. Qed.

(** The statement above, evaluated: the record with the streamed text is
    pushed to logger 7, then the compound is released. *)
Example one_statement_trace :
  (trace ∘ the_world) <$> run_steps (start_statement 0 7 hello_record empty_world) one_statement
  = Some [ev_push_record 7 {| attribute_values := severity_set; message_text := "hello" |};
          ev_release_compound (Some 0)].
Proof. vm_compute. reflexivity. Qed.

(** ** Scenarios for the further properties *)

Lemma visitation_result_bool_iff_visited_witness :
  visitation_result_bool (mk_visitation_result ok) = true ↔
  code (mk_visitation_result ok) = ok.
Proof.
  destruct (visitation_result_bool_iff_visited severity_invoker severity_set
              output_visitor [] (mk_visitation_result ok) [int_object 2])
    as (_ & Hbool & _).
  - reflexivity.
  - exact Hbool.
Defined.

Lemma invoker_candidates_inclusion_witness :
  value_visitor_invoker_call (mk_value_visitor_invoker [type_string; type_int] "Severity")
    severity_set output_visitor []
  = value_visitor_invoker_call (mk_value_visitor_invoker [type_int] "Severity")
      severity_set output_visitor [].
Proof.
  destruct (invoker_candidates_inclusion "Severity" [type_int] [type_string; type_int]
              severity_set output_visitor []) as [Hsub _].
  apply Hsub.
  - intros T HT. apply list_elem_of_further, HT.
  - discriminate.
Defined.

Lemma date_types_cover_time_types_witness :
  value_visitor_invoker_call (mk_value_visitor_invoker date_types "TimeStamp")
    timestamp_set time_output_visitor []
  = (Returns (mk_visitation_result ok), [int_object 1351500000]) ∧
  value_visitor_invoker_call (mk_value_visitor_invoker time_duration_types "TimeStamp")
    timestamp_set time_output_visitor []
  = (Returns (mk_visitation_result value_has_invalid_type), []).
Proof.
  destruct (date_types_cover_time_types "TimeStamp" timestamp_set time_output_visitor []
              (mk_attribute_value (Some (posix_time_ptime, int_object 1351500000)))
              posix_time_ptime (int_object 1351500000))
    as (_ & _ & _ & Hdate & Hduration & _).
  - reflexivity.
  - reflexivity.
  - apply list_elem_of_further, list_elem_of_further, list_elem_of_here.
  - split; [|exact Hduration]. rewrite Hdate. reflexivity.
Defined.

Lemma keyword_policies_agree_on_success_witness :
  keyword_terminal_call severity_keyword severity_env = Returns (Some (int_object 2)) ∧
  attribute_terminal_eval (attribute_keyword_or_throw severity_keyword) severity_env
  = Returns (Some (int_object 2)).
Proof.
  destruct (keyword_policies_agree_on_success severity_keyword severity_env
              (int_value 2) type_int (int_object 2) (int_object 0))
    as (Hbare & _ & Hthrow & _).
  - reflexivity.
  - apply list_elem_of_here.
  - reflexivity.
  - split; [exact Hbare | exact Hthrow].
Defined.


Lemma attr_terminal_eval_witness :
  attribute_terminal_eval (attr [type_int] "Severity") severity_env
  = Returns (Some (int_object 2)).
Proof.
  destruct (attr_terminal_eval [type_int] "Severity" severity_env) as (_ & _ & Hsome & _).
  apply Hsome. exists (int_value 2), type_int.
  split; [reflexivity|]. split; [apply list_elem_of_here | reflexivity].
Defined.

Lemma default_formatter_outputs_message_witness :
  basic_formatter_call (basic_formatter_ctor "Message" [type_string] output_visitor)
    hello_record []
  = (Returns (), []) ∧
  basic_formatter_call (basic_formatter_ctor "Message" [type_string] output_visitor)
    message_record []
  = (Returns (), [string_object "hello"]).
Proof.
  split.
  - destruct (default_formatter_outputs_message "Message" [type_string] output_visitor
                hello_record []) as (Habsent & _).
    apply Habsent. reflexivity.
  - destruct (default_formatter_outputs_message "Message" [type_string] output_visitor
                message_record []) as (_ & _ & Hfound & _).
    apply (Hfound (string_value "hello") type_string (string_object "hello")).
    + reflexivity.
    + apply list_elem_of_here.
    + reflexivity.
Defined.

Lemma log_statement_pushes_composed_record_witness :
  BOOST_LOG_STREAM_INTERNAL 1 7 (Some hello_record) ["hello"; ", world"] empty_world
  = Some {| compounds := ∅;
            uncaught_exception := false;
            trace := [ev_push_record 7 {| attribute_values := severity_set;
                                          message_text := "hello, world" |};
                      ev_release_compound (Some 0)] |}.
Proof.
  destruct (log_statement_pushes_composed_record 1 7 hello_record ["hello"; ", world"]
              empty_world) as [Hvalid _].
  - reflexivity.
  - rewrite Hvalid. reflexivity.
Defined.

Lemma log_statement_dropped_while_unwinding_witness :
  BOOST_LOG_STREAM_INTERNAL 1 7 (Some hello_record) ["hello"] unwinding_world
  = Some {| compounds := ∅;
            uncaught_exception := true;
            trace := [ev_release_compound (Some 0)] |}.
Proof.
  destruct (log_statement_dropped_while_unwinding 1 7 hello_record ["hello"]
              unwinding_world) as [Hdrop _].
  - reflexivity.
  - rewrite Hdrop. reflexivity.
Defined.

Lemma stream_usable_iff_owner_witness :
  match run_steps (start_statement 0 7 hello_record empty_world) [step_copy 0 1] with
  | Some st =>
      ¬ is_Some (record_pump_stream null_pump (the_world st)) ∧
      is_Some (record_pump_stream (owner_pump 7 0) (the_world st))
  | None => False
  end.
Proof.
  destruct (run_steps (start_statement 0 7 hello_record empty_world) [step_copy 0 1])
    as [st|] eqn:Heq; [|vm_compute in Heq; discriminate].
  assert (Hsrc : objects st !! 0 = Some null_pump).
  { vm_compute in Heq. injection Heq as <-. reflexivity. }
  assert (Hdst : objects st !! 1 = Some (owner_pump 7 0)).
  { vm_compute in Heq. injection Heq as <-. reflexivity. }
  destruct (stream_usable_iff_owner 0 7 hello_record empty_world [step_copy 0 1] st
              0 null_pump Heq Hsrc) as (Hnull & _).
  destruct (stream_usable_iff_owner 0 7 hello_record empty_world [step_copy 0 1] st
              1 (owner_pump 7 0) Heq Hdst) as (Howner & _).
  split.
  - intros Hs. apply Hnull in Hs. destruct Hs as [x Hx]. discriminate Hx.
  - apply Howner. exists 7. reflexivity.
Defined.

Lemma no_push_after_raise_witness :
  match run_steps (start_statement 0 7 hello_record empty_world)
          ([step_copy 0 1] ++ step_raise :: [step_destroy 0; step_destroy 1]) with
  | Some st' => pushes (the_world st') = 0
  | None => False
  end.
Proof.
  rewrite run_steps_app.
  destruct (run_steps (start_statement 0 7 hello_record empty_world) [step_copy 0 1])
    as [st1|] eqn:Heq1; [|vm_compute in Heq1; discriminate].
  assert (Hp1 : pushes (the_world st1) = 0).
  { vm_compute in Heq1. injection Heq1 as <-. reflexivity. }
  destruct (run_steps st1 (step_raise :: [step_destroy 0; step_destroy 1]))
    as [st'|] eqn:Heq2.
  - rewrite (no_push_after_raise 0 7 hello_record empty_world [step_copy 0 1]
               [step_destroy 0; step_destroy 1] st1 st' Heq1 eq_refl Heq2).
    exact Hp1.
  - vm_compute in Heq1. injection Heq1 as <-. vm_compute in Heq2. discriminate.
Defined.

(** An exception raised and caught while the statement streams does not
    keep the record from being pushed. *)
Example statement_pushes_after_catch :
  (trace ∘ the_world) <$>
    run_steps (start_statement 0 7 hello_record empty_world)
      [step_insert 0 "a"; step_raise; step_catch; step_insert 0 "b"; step_destroy 0]
  = Some [ev_push_record 7 {| attribute_values := severity_set; message_text := "ab" |};
          ev_release_compound (Some 0)].
Proof. vm_compute. reflexivity. Qed.

Lemma destructor_always_defined_witness :
  match run_steps (start_statement 0 7 hello_record empty_world) [step_copy 0 1] with
  | Some st => is_Some (run_step st (step_destroy 0)) ∧
               is_Some (run_step st (step_destroy 1))
  | None => False
  end.
Proof.
  destruct (run_steps (start_statement 0 7 hello_record empty_world) [step_copy 0 1])
    as [st|] eqn:Heq; [|vm_compute in Heq; discriminate].
  split.
  - apply (destructor_always_defined 0 7 hello_record empty_world [step_copy 0 1] st 0 Heq).
    vm_compute in Heq. injection Heq as <-. eexists. reflexivity.
  - apply (destructor_always_defined 0 7 hello_record empty_world [step_copy 0 1] st 1 Heq).
    vm_compute in Heq. injection Heq as <-. eexists. reflexivity.
Defined.
